(** * Physio-Jumper: the motion-driven game engine

    A shallow embedding of [utils/math] ([calculateAngle], [normalize]) and of
    the [GameCanvas] component ([onPoseResults], [updateGame], [startGame],
    [createSparkles], [playSound]).

    Numbers.  A JavaScript [number] is modelled by a real number: the
    arithmetic of the source is read exactly, without rounding, and there is
    no NaN or infinity.  The properties are therefore kept to what does not
    turn on the last digits of a number: bounds, orderings, comparisons of
    stored values and single steps of the source's own arithmetic, not closed
    forms for what the source accumulates over many frames, and a frame count
    only where its quotient is off the whole numbers ([offWhole]).  [Math.atan2], [Math.PI], [Math.abs], [Math.max],
    [Math.min] and [Math.floor] are the functions of real analysis.  The
    counters [score], [highScore] and [frameRef], which only ever hold
    integers, are integers.

    React.  A [useState] cell read inside a callback has the value of the
    render that made the callback.  [updateGame] is remade whenever a cell it
    reads changes, and renders are taken to happen between callbacks, so a
    frame reads the cells as they stand when it starts and its [set...] calls
    show from the next callback on.  The updater handed to [setScore] is run
    where it is queued.

    Rendering (the canvas draw calls), the feedback text and the camera
    plumbing are left out; the canvas is taken to be there; the audio device
    is a log of the cues requested.

    The prototype that [types.ts] carries after its type declarations is
    embedded as far as its pose callback and its obstacle loop go. *)

From Stdlib Require Import String Reals Lra Lia ZArith List Bool.
Import ListNotations.
Open Scope R_scope.

(** ** Comparisons of numbers, as booleans *)

Definition Rgtb (a b : R) : bool := if Rgt_dec a b then true else false.
Definition Rltb (a b : R) : bool := if Rlt_dec a b then true else false.
Definition Rleb (a b : R) : bool := if Rle_dec a b then true else false.

Infix ">?" := Rgtb (at level 70, no associativity) : R_scope.
Infix "<?" := Rltb (at level 70, no associativity) : R_scope.
Infix "<=?" := Rleb (at level 70, no associativity) : R_scope.

(** [Math.floor], on the reals. *)
Definition floor (r : R) : Z := Int_part r.

(** The ceiling of the specification's formulas. *)
Definition ceil (r : R) : Z := (- Int_part (- r))%Z.

(** [Math.atan2 (y, x)]: the angle of the point [(x, y)], in (-PI, PI]. *)
Definition atan2 (y x : R) : R :=
  if 0 <? x then atan (y / x)
  else if x <? 0 then (if 0 <=? y then atan (y / x) + PI else atan (y / x) - PI)
  else if 0 <? y then PI / 2
  else if y <? 0 then - (PI / 2)
  else 0.

(** ** types.ts *)

Inductive GameMode := SQUAT | ARM_RAISE | LUNGE.
Inductive GameState := MENU | TUTORIAL | PLAYING | GAME_OVER.
Inductive Difficulty := EASY | MEDIUM | HARD.

(** [visibility] is an optional field of the interface. *)
Module Point.
Record t := mk {
  x : R;
  y : R;
  visibility : option R
}.
End Point.

(** ** utils/math *)

Definition calculateAngle (a b c : Point.t) : R :=
  let radians :=
    atan2 (Point.y c - Point.y b) (Point.x c - Point.x b)
    - atan2 (Point.y a - Point.y b) (Point.x a - Point.x b) in
  let angle := Rabs (radians * 180 / PI) in
  if angle >? 180 then 360 - angle else angle.

Definition normalize (value min max : R) (inverse : bool) : R :=
  let normalized := (value - min) / (max - min) in
  let normalized := Rmax 0 (Rmin 1 normalized) in
  if inverse then 1 - normalized else normalized.

(** ** GameCanvas: data *)

Inductive SparkleType := circle | star.
Inductive ObstacleType := block | floating.

Module Sparkle.
Record t := mk {
  x : R;
  y : R;
  vx : R;
  vy : R;
  size : R;
  color : string;
  alpha : R;
  decay : R;
  type : SparkleType
}.
End Sparkle.

Module Obstacle.
Record t := mk {
  x : R;
  y : R;
  w : R;
  h : R;
  type : ObstacleType;
  color : string
}.

Definition set_x (v : R) (o : t) : t := mk v (y o) (w o) (h o) (type o) (color o).
End Obstacle.

(** The cues of [playSound]. *)
Inductive Sound := snd_score | snd_gameover | snd_start | snd_jump.

Definition CANVAS_WIDTH : R := 1280.
Definition CANVAS_HEIGHT : R := 720.

(** The state of one mounted [GameCanvas]: its prop [mode], its [useState]
    cells and its [useRef] cells, under the source's names.  Two fields stand
    for the environment: [played] is the log of the cues requested from the
    audio device, oldest first, and [randomCalls] counts the calls of
    [Math.random] made so far. *)
#[projections(primitive)]
Record Engine := mkEngine {
  mode : GameMode;
  gameState : GameState;
  difficulty : Difficulty;
  score : Z;
  highScore : Z;
  isSimulation : bool;
  simIntensity : R;
  playerY : R;
  playerVelocity : R;
  intensityRef : R;
  wasJumpingRef : bool;
  obstacles : list Obstacle.t;
  gameSpeed : R;
  frameRef : Z;
  sparklesRef : list Sparkle.t;
  played : list Sound;
  randomCalls : nat
}.

Definition set_gameState (v : GameState) (st : Engine) : Engine :=
  mkEngine (mode st) v (difficulty st) (score st) (highScore st) (isSimulation st)
    (simIntensity st) (playerY st) (playerVelocity st) (intensityRef st)
    (wasJumpingRef st) (obstacles st) (gameSpeed st) (frameRef st) (sparklesRef st)
    (played st) (randomCalls st).

Definition set_difficulty (v : Difficulty) (st : Engine) : Engine :=
  mkEngine (mode st) (gameState st) v (score st) (highScore st) (isSimulation st)
    (simIntensity st) (playerY st) (playerVelocity st) (intensityRef st)
    (wasJumpingRef st) (obstacles st) (gameSpeed st) (frameRef st) (sparklesRef st)
    (played st) (randomCalls st).

Definition set_score (v : Z) (st : Engine) : Engine :=
  mkEngine (mode st) (gameState st) (difficulty st) v (highScore st) (isSimulation st)
    (simIntensity st) (playerY st) (playerVelocity st) (intensityRef st)
    (wasJumpingRef st) (obstacles st) (gameSpeed st) (frameRef st) (sparklesRef st)
    (played st) (randomCalls st).

Definition set_highScore (v : Z) (st : Engine) : Engine :=
  mkEngine (mode st) (gameState st) (difficulty st) (score st) v (isSimulation st)
    (simIntensity st) (playerY st) (playerVelocity st) (intensityRef st)
    (wasJumpingRef st) (obstacles st) (gameSpeed st) (frameRef st) (sparklesRef st)
    (played st) (randomCalls st).

Definition set_playerY (v : R) (st : Engine) : Engine :=
  mkEngine (mode st) (gameState st) (difficulty st) (score st) (highScore st)
    (isSimulation st) (simIntensity st) v (playerVelocity st) (intensityRef st)
    (wasJumpingRef st) (obstacles st) (gameSpeed st) (frameRef st) (sparklesRef st)
    (played st) (randomCalls st).

Definition set_playerVelocity (v : R) (st : Engine) : Engine :=
  mkEngine (mode st) (gameState st) (difficulty st) (score st) (highScore st)
    (isSimulation st) (simIntensity st) (playerY st) v (intensityRef st)
    (wasJumpingRef st) (obstacles st) (gameSpeed st) (frameRef st) (sparklesRef st)
    (played st) (randomCalls st).

Definition set_intensityRef (v : R) (st : Engine) : Engine :=
  mkEngine (mode st) (gameState st) (difficulty st) (score st) (highScore st)
    (isSimulation st) (simIntensity st) (playerY st) (playerVelocity st) v
    (wasJumpingRef st) (obstacles st) (gameSpeed st) (frameRef st) (sparklesRef st)
    (played st) (randomCalls st).

Definition set_wasJumpingRef (v : bool) (st : Engine) : Engine :=
  mkEngine (mode st) (gameState st) (difficulty st) (score st) (highScore st)
    (isSimulation st) (simIntensity st) (playerY st) (playerVelocity st)
    (intensityRef st) v (obstacles st) (gameSpeed st) (frameRef st) (sparklesRef st)
    (played st) (randomCalls st).

Definition set_obstacles (v : list Obstacle.t) (st : Engine) : Engine :=
  mkEngine (mode st) (gameState st) (difficulty st) (score st) (highScore st)
    (isSimulation st) (simIntensity st) (playerY st) (playerVelocity st)
    (intensityRef st) (wasJumpingRef st) v (gameSpeed st) (frameRef st) (sparklesRef st)
    (played st) (randomCalls st).

Definition set_gameSpeed (v : R) (st : Engine) : Engine :=
  mkEngine (mode st) (gameState st) (difficulty st) (score st) (highScore st)
    (isSimulation st) (simIntensity st) (playerY st) (playerVelocity st)
    (intensityRef st) (wasJumpingRef st) (obstacles st) v (frameRef st) (sparklesRef st)
    (played st) (randomCalls st).

Definition set_frameRef (v : Z) (st : Engine) : Engine :=
  mkEngine (mode st) (gameState st) (difficulty st) (score st) (highScore st)
    (isSimulation st) (simIntensity st) (playerY st) (playerVelocity st)
    (intensityRef st) (wasJumpingRef st) (obstacles st) (gameSpeed st) v (sparklesRef st)
    (played st) (randomCalls st).

Definition set_sparklesRef (v : list Sparkle.t) (st : Engine) : Engine :=
  mkEngine (mode st) (gameState st) (difficulty st) (score st) (highScore st)
    (isSimulation st) (simIntensity st) (playerY st) (playerVelocity st)
    (intensityRef st) (wasJumpingRef st) (obstacles st) (gameSpeed st) (frameRef st) v
    (played st) (randomCalls st).

Definition set_played (v : list Sound) (st : Engine) : Engine :=
  mkEngine (mode st) (gameState st) (difficulty st) (score st) (highScore st)
    (isSimulation st) (simIntensity st) (playerY st) (playerVelocity st)
    (intensityRef st) (wasJumpingRef st) (obstacles st) (gameSpeed st) (frameRef st)
    (sparklesRef st) v (randomCalls st).

Definition set_randomCalls (v : nat) (st : Engine) : Engine :=
  mkEngine (mode st) (gameState st) (difficulty st) (score st) (highScore st)
    (isSimulation st) (simIntensity st) (playerY st) (playerVelocity st)
    (intensityRef st) (wasJumpingRef st) (obstacles st) (gameSpeed st) (frameRef st)
    (sparklesRef st) (played st) v.

(** The component as mounted: the initial values of its cells. *)
Definition initialEngine (m : GameMode) : Engine :=
  mkEngine m TUTORIAL MEDIUM 0 0 false 0 (CANVAS_HEIGHT / 2) 0 0 false [] 6 0 [] [] 0.

(** ** GameCanvas: behaviour *)

Section GameCanvas.

(** [Math.random]: [rand k] is what its [k]-th call returns. *)
Variable rand : nat -> R.

Definition random (st : Engine) : R * Engine :=
  (rand (randomCalls st), set_randomCalls (S (randomCalls st)) st).

Definition colors : list string :=
  ["#FFD700"; "#FF4500"; "#00BFFF"; "#FFFFFF"; "#F72585"; "#4CC9F0"]%string.

(** One turn of the loop of [createSparkles]. *)
Definition pushSparkle (st : Engine) : Engine :=
  let '(r1, st) := random st in
  let '(r2, st) := random st in
  let '(r3, st) := random st in
  let '(r4, st) := random st in
  let '(r5, st) := random st in
  set_sparklesRef
    (sparklesRef st ++
     [Sparkle.mk (CANVAS_WIDTH / 2) 120
        ((r1 - 0.5) * 15) ((r2 - 0.5) * 15)
        (r3 * 6 + 3)
        (nth (Z.to_nat (floor (r4 * INR (List.length colors)))) colors EmptyString)
        1.0 (r5 * 0.02 + 0.01) star]) st.

Definition createSparkles (st : Engine) : Engine := Nat.iter 40 pushSparkle st.

(** [playSound]: the request is logged; what the audio device does with it,
    and whether it can honour it, stays outside the engine. *)
Definition playSound (type : Sound) (st : Engine) : Engine :=
  set_played (played st ++ [type]) st.

(** The raw intensity of one pose sample, the [currentIntensity] of
    [onPoseResults].  [results] is [results.poseLandmarks]: [None] when it is
    null, else the landmarks by index. *)
Definition currentIntensity (results : option (nat -> Point.t)) (st : Engine) : R :=
  if isSimulation st then simIntensity st
  else match results with
       | Some landmarks =>
           match mode st with
           | SQUAT =>
               let angle := calculateAngle (landmarks 23%nat) (landmarks 25%nat) (landmarks 27%nat) in
               normalize angle 160 70 true
           | ARM_RAISE =>
               let nose := landmarks 0%nat in
               let leftWrist := landmarks 15%nat in
               let rightWrist := landmarks 16%nat in
               let leftHigh := Point.y leftWrist <? Point.y nose in
               let rightHigh := Point.y rightWrist <? Point.y nose in
               if leftHigh && rightHigh then 1.0
               else if leftHigh || rightHigh then 0.5
               else 0.0
           | LUNGE =>
               let lKneeAngle := calculateAngle (landmarks 23%nat) (landmarks 25%nat) (landmarks 27%nat) in
               let rKneeAngle := calculateAngle (landmarks 24%nat) (landmarks 26%nat) (landmarks 28%nat) in
               let lIntensity := normalize lKneeAngle 160 90 true in
               let rIntensity := normalize rKneeAngle 160 90 true in
               Rmax lIntensity rIntensity
           end
       | None => 0
       end.

Definition onPoseResults (results : option (nat -> Point.t)) (st : Engine) : Engine :=
  let currentIntensity := currentIntensity results st in
  (* Smooth the intensity *)
  let st := set_intensityRef (intensityRef st * 0.8 + currentIntensity * 0.2) st in
  (* Sound Trigger for Exertion (JUMP) *)
  if (intensityRef st >? 0.6) && negb (wasJumpingRef st) then
    set_wasJumpingRef true (playSound snd_jump st)
  else if intensityRef st <? 0.4 then
    set_wasJumpingRef false st
  else st.

(** The physics parameters of [updateGame], by difficulty. *)
Definition gravity (d : Difficulty) : R :=
  match d with EASY => 0.12 | MEDIUM => 0.5 | HARD => 1.1 end.
Definition liftMultiplier (d : Difficulty) : R :=
  match d with EASY => 4.0 | MEDIUM => 1.8 | HARD => 1.1 end.
Definition spawnRate (d : Difficulty) : Z :=
  match d with EASY => 300 | MEDIUM => 100 | HARD => 40 end.
Definition speedIncrement (d : Difficulty) : R :=
  match d with EASY => 0.002 | MEDIUM => 0.05 | HARD => 0.15 end.

(** The gap of a gate, by difficulty. *)
Definition gapSize (d : Difficulty) : R :=
  match d with EASY => 300 | MEDIUM => 180 | HARD => 150 end.

(** [updateGame], "Player Physics" and "Boundaries". *)
Definition playerPhysics (st : Engine) : Engine :=
  let lift := intensityRef st * liftMultiplier (difficulty st) in
  let st := set_playerVelocity (playerVelocity st - lift) st in
  let st := set_playerVelocity (playerVelocity st + gravity (difficulty st)) st in
  let st := set_playerVelocity (Rmax (-15) (Rmin 15 (playerVelocity st))) st in
  let st := set_playerY (playerY st + playerVelocity st) st in
  let st :=
    if playerY st >? CANVAS_HEIGHT - 60
    then set_playerVelocity 0 (set_playerY (CANVAS_HEIGHT - 60) st)
    else st in
  if playerY st <? 0
  then set_playerVelocity 0 (set_playerY 0 st)
  else st.

Definition pushObstacle (o : Obstacle.t) (st : Engine) : Engine :=
  set_obstacles (obstacles st ++ [o]) st.

(** The frame spawns when [frameRef.current % spawnRate === 0]. *)
Definition spawnDue (st : Engine) : bool :=
  (Z.rem (frameRef st) (spawnRate (difficulty st)) =? 0)%Z.

(** [updateGame], "Dynamic Spawn Logic". *)
Definition spawnObstacles (st : Engine) : Engine :=
  if spawnDue st then
    let isAdvancedLevel := (score st >=? 10)%Z in
    let '(rnd, st) := random st in
    let st :=
      if isAdvancedLevel && (rnd >? 0.6) then
        (* TYPE A: The Gate (Top and Bottom Pillars with gap) *)
        let gapSize := gapSize (difficulty st) in
        let '(r, st) := random st in
        let gapY := r * (CANVAS_HEIGHT - gapSize - 100) + 50 in
        let st := pushObstacle (Obstacle.mk CANVAS_WIDTH 0 60 gapY block "#7209B7") st in
        pushObstacle
          (Obstacle.mk CANVAS_WIDTH (gapY + gapSize) 60
             (CANVAS_HEIGHT - (gapY + gapSize)) block "#7209B7") st
      else if isAdvancedLevel && (rnd >? 0.4) then
        (* TYPE B: Floating Crate (Middle of screen) *)
        let size := 80 in
        let '(r, st) := random st in
        pushObstacle
          (Obstacle.mk CANVAS_WIDTH (r * (CANVAS_HEIGHT - 200) + 100) size size
             floating "#FF9F1C") st
      else
        (* TYPE C: Classic Pillar (Top or Bottom) *)
        let '(r1, st) := random st in
        let isTop := r1 >? 0.5 in
        let '(r2, st) := random st in
        let height := r2 * 200 + 100 in
        pushObstacle
          (Obstacle.mk CANVAS_WIDTH (if isTop then 0 else CANVAS_HEIGHT - height) 60
             height block "#F72585") st in
    set_gameSpeed (gameSpeed st + speedIncrement (difficulty st)) st
  else st.

(** The collision check: the 60 by 60 box centred at (200, playerY) against
    the rectangle of the obstacle. *)
Definition collides (playerY : R) (obs : Obstacle.t) : bool :=
  (200 + 30 >? Obstacle.x obs) &&
  (200 - 30 <? Obstacle.x obs + Obstacle.w obs) &&
  (playerY + 30 >? Obstacle.y obs) &&
  (playerY - 30 <? Obstacle.y obs + Obstacle.h obs).

(** The updater handed to [setScore], run on the pending score. *)
Definition incrementScore (st : Engine) : Engine :=
  let newScore := (score st + 1)%Z in
  let st :=
    if (newScore >? 0)%Z && (Z.rem newScore 10 =? 0)%Z
    then createSparkles (playSound snd_score st)
    else st in
  set_score newScore st.

(** [updateGame], "Update Obstacles": the loop runs from the last index down
    to 0, so the tail of the list is visited before its head, and
    [splice (i, 1)] leaves the entries still to visit in place.  [score0] and
    [highScore0] are the [score] and [highScore] of the render that made the
    callback.  The result is the array after the loop, and the state. *)
Fixpoint updateObstacles (score0 highScore0 : Z) (obs : list Obstacle.t) (st : Engine)
  : list Obstacle.t * Engine :=
  match obs with
  | [] => ([], st)
  | o :: later =>
      let '(kept, st) := updateObstacles score0 highScore0 later st in
      let obs := Obstacle.set_x (Obstacle.x o - gameSpeed st) o in
      (* Collision Check *)
      let st :=
        if collides (playerY st) obs then
          let st := playSound snd_gameover st in
          let st := set_gameState GAME_OVER st in
          if (score0 >? highScore0)%Z then set_highScore score0 st else st
        else st in
      if Obstacle.x obs + Obstacle.w obs <? 0
      then (kept, incrementScore st)
      else (obs :: kept, st)
  end.

(** [updateGame], "Draw Sparkles", without the drawing: one sparkle. *)
Definition stepSparkle (s : Sparkle.t) : option Sparkle.t :=
  let x := Sparkle.x s + Sparkle.vx s in
  let y := Sparkle.y s + Sparkle.vy s in
  let vy := Sparkle.vy s + 0.2 in
  let alpha := Sparkle.alpha s - Sparkle.decay s in
  if alpha <=? 0 then None
  else Some (Sparkle.mk x y (Sparkle.vx s) vy (Sparkle.size s) (Sparkle.color s)
               alpha (Sparkle.decay s) (Sparkle.type s)).

Definition updateSparkles (st : Engine) : Engine :=
  set_sparklesRef
    (flat_map (fun s => match stepSparkle s with Some s' => [s'] | None => [] end)
       (sparklesRef st)) st.

(** The body of [if (gameState === GameState.PLAYING)]. *)
Definition playingFrame (st : Engine) : Engine :=
  let score0 := score st in
  let highScore0 := highScore st in
  let st := playerPhysics st in
  let st := spawnObstacles st in
  let '(kept, st) := updateObstacles score0 highScore0 (obstacles st) st in
  set_obstacles kept st.

(** One animation frame, the canvas being there. *)
Definition updateGame (st : Engine) : Engine :=
  let st := match gameState st with PLAYING => playingFrame st | _ => st end in
  let st := updateSparkles st in
  set_frameRef (frameRef st + 1) st.

Definition startGame (st : Engine) : Engine :=
  let st := set_score 0 st in
  let st := set_playerY (CANVAS_HEIGHT / 2) st in
  let st := set_obstacles [] st in
  let st := set_sparklesRef [] st in
  let st := set_playerVelocity 0 st in
  (* Initialize speeds based on selected difficulty *)
  let st :=
    match difficulty st with
    | EASY => set_gameSpeed 3 st
    | MEDIUM => set_gameSpeed 6 st
    | HARD => set_gameSpeed 10 st
    end in
  let st := playSound snd_start st in
  set_gameState PLAYING st.

(** ** The component over time

    What can happen to a mounted component: the pose source delivers a result,
    the browser runs an animation frame, or the player uses a control.  The
    controls exist only while they are rendered: START and the difficulty
    buttons in the tutorial, Try Again on the game-over screen, the intensity
    slider in simulation mode.  The slider writes [intensityRef] and calls
    [setSimIntensity]; the [onPoseResults] registered with the pose source is
    the one of the render that registered it (the effect depends on
    [isSimulation] alone), so [simIntensity] below, the value that callback
    reads, does not follow the slider. *)
Inductive Event :=
  | EvPose (results : option (nat -> Point.t))
  | EvFrame
  | EvStart
  | EvSetDifficulty (d : Difficulty)
  | EvSlider (val : R).

Definition step (ev : Event) (st : Engine) : Engine :=
  match ev with
  | EvPose results => onPoseResults results st
  | EvFrame => updateGame st
  | EvStart =>
      match gameState st with
      | TUTORIAL | GAME_OVER => startGame st
      | _ => st
      end
  | EvSetDifficulty d =>
      match gameState st with
      | TUTORIAL => set_difficulty d st
      | _ => st
      end
  | EvSlider val =>
      if isSimulation st then set_intensityRef val st else st
  end.

Definition run (evs : list Event) (st : Engine) : Engine :=
  fold_left (fun st ev => step ev st) evs st.

(** The transitions of a run: each event with the state before and after. *)
Fixpoint transitions (evs : list Event) (st : Engine) : list (Event * Engine * Engine) :=
  match evs with
  | [] => []
  | ev :: evs' => (ev, st, step ev st) :: transitions evs' (step ev st)
  end.

End GameCanvas.

(** ** The prototype kept in types.ts

    The single-component prototype of the game, with its own pose callback
    and its own frame loop.  Its [calculateAngle] is that of [utils/math]. *)

Module Prototype.

(** An obstacle of the prototype. *)
Module Block.
Record t := mk {
  x : R;
  y : R;
  w : R;
  h : R
}.
Definition set_x (v : R) (o : t) : t := mk v (y o) (w o) (h o).
End Block.



(** "Move Obstacles": [obstacles.current.forEach] with its callback.
    [forEach] visits the indices [k], [k + 1], ..., [fuel] of them, which is
    the length the array had when the loop began, and passes over an index the
    array no longer has.  The callback moves the obstacle in place and, once
    it is past the left edge, splices it out and scores; the collision check
    only writes to the console. *)
Fixpoint forEach (gameSpeed : R) (fuel k : nat) (arr : list Block.t) (score : Z)
  : list Block.t * Z :=
  match fuel with
  | O => (arr, score)
  | S fuel =>
      match nth_error arr k with
      | None => forEach gameSpeed fuel (S k) arr score
      | Some obs =>
          let obs := Block.set_x (Block.x obs - gameSpeed) obs in
          (* Remove off-screen obstacles & Add Score *)
          if Block.x obs + Block.w obs <? 0
          then forEach gameSpeed fuel (S k) (firstn k arr ++ skipn (S k) arr) (score + 1)
          else forEach gameSpeed fuel (S k) (firstn k arr ++ obs :: skipn (S k) arr) score
      end
  end.

Definition moveObstacles (gameSpeed : R) (arr : list Block.t) (score : Z)
  : list Block.t * Z :=
  forEach gameSpeed (length arr) 0 arr score.

End Prototype.

(** * The vocabulary of the properties *)

(** ** Views of the state *)

(** Clamping to [0, 1], the middle step of [normalize]. *)
Definition clamp01 (t : R) : R := Rmax 0 (Rmin 1 t).

(** The cells that nothing in [updateGame] writes before the frame counter is
    bumped, except that the player physics writes the last two. *)
Definition kept (st : Engine) :=
  (mode st, difficulty st, isSimulation st, simIntensity st, intensityRef st,
   wasJumpingRef st, frameRef st, playerY st, playerVelocity st).

(** The cells the player physics leaves alone. *)
Definition world (st : Engine) :=
  (gameState st, score st, highScore st, obstacles st, gameSpeed st, played st,
   sparklesRef st, randomCalls st).

(** The velocity the physics settles on before it moves the avatar. *)
Definition nextVelocity (st : Engine) : R :=
  Rmax (-15)
    (Rmin 15
       (playerVelocity st - intensityRef st * liftMultiplier (difficulty st)
        + gravity (difficulty st))).

(** The avatar is inside the field and within the speed limit. *)
Definition avatarInBounds (st : Engine) : Prop :=
  0 <= playerY st <= CANVAS_HEIGHT - 60 /\ -15 <= playerVelocity st <= 15.

(** The jump cue is requested by this pose result. *)
Definition jumpFires (results : option (nat -> Point.t)) (st : Engine) : Prop :=
  played (onPoseResults results st) = played st ++ [snd_jump].

(** ** Obstacles over frames *)

(** An obstacle after one frame at scroll speed [s]. *)
Definition moved (s : R) (o : Obstacle.t) : Obstacle.t :=
  Obstacle.set_x (Obstacle.x o - s) o.

(** It has scrolled fully past the left edge. *)
Definition exited (o : Obstacle.t) : bool := Obstacle.x o + Obstacle.w o <? 0.

(** The obstacles that stay in the array after one frame. *)
Definition survivors (s : R) (obs : list Obstacle.t) : list Obstacle.t :=
  filter (fun o => negb (exited o)) (map (moved s) obs).

(** Some obstacle, moved, overlaps the avatar's box. *)
Definition hit (y s : R) (obs : list Obstacle.t) : bool :=
  existsb (fun o => collides y (moved s o)) obs.

(** The middle of a Playing frame: the state after the player physics and
    the spawn logic, before the loop over the obstacles. *)
Definition spawned (rand : nat -> R) (st : Engine) : Engine :=
  spawnObstacles rand (playerPhysics st).

(** An obstacle after [k] frames at scroll speed [s]: gone once it has passed
    the left edge, else [k * s] further left. *)
Definition aged (s : R) (k : nat) (o : Obstacle.t) : list Obstacle.t :=
  match k with
  | O => [o]
  | S _ =>
      if Obstacle.x o + Obstacle.w o - INR k * s <? 0 then []
      else [Obstacle.set_x (Obstacle.x o - INR k * s) o]
  end.

Definition agedAll (s : R) (k : nat) (obs : list Obstacle.t) : list Obstacle.t :=
  flat_map (aged s k) obs.

Definition frameCount (evs : list Event) : nat :=
  length (filter (fun ev => match ev with EvFrame => true | _ => false end) evs).



(** ** Poses and confidence *)

(** The landmarks a mode's computation reads. *)
Definition requiredLandmarks (m : GameMode) : list nat :=
  match m with
  | SQUAT => [23; 25; 27]
  | ARM_RAISE => [0; 15; 16]
  | LUNGE => [23; 25; 27; 24; 26; 28]
  end%nat.

(** A landmark whose visibility confidence is below 0.5. *)
Definition lowConfidence (p : Point.t) : Prop :=
  match Point.visibility p with
  | Some v => v < 0.5
  | None => False
  end.

(** A leg bent at a right angle: hip above the knee, ankle level with it. *)
Definition bentLeg (vis : option R) (i : nat) : Point.t :=
  match i with
  | 23%nat => Point.mk 0.5 0.5 vis
  | 25%nat => Point.mk 0.5 0.7 vis
  | 27%nat => Point.mk 0.7 0.7 vis
  | _ => Point.mk 0.5 0.5 vis
  end.

(** Both legs straight: hip, knee and ankle on one vertical line. *)
Definition straightLegs (vis : option R) (i : nat) : Point.t :=
  match i with
  | 23%nat | 24%nat => Point.mk 0.5 0.5 vis
  | 25%nat | 26%nat => Point.mk 0.5 0.7 vis
  | 27%nat | 28%nat => Point.mk 0.5 0.9 vis
  | _ => Point.mk 0.5 0.5 vis
  end.

(** ** Particular games *)



(** A run about to end: score 3 over a high score of 2, and a pillar that the
    next frame brings onto the avatar. *)
Definition collisionState : Engine :=
  mkEngine SQUAT PLAYING MEDIUM 3 2 false 0 360 0 0 false
    [Obstacle.mk 210 300 60 200 block "#F72585"] 6 1 [] [] 0.




(** A Medium game at score 10 on a spawn frame. *)
Definition gateSpawnState : Engine :=
  mkEngine SQUAT PLAYING MEDIUM 10 10 false 0 360 0 0 false [] 6.5 100 [] [] 0.

(** A Medium game whose oldest obstacles are the two pillars of a gate, about
    to leave; the frame does not spawn. *)
Definition gateExitState : Engine :=
  mkEngine SQUAT PLAYING MEDIUM 10 10 false 0 360 0 0 false
    [Obstacle.mk (-55) 0 60 200 block "#7209B7";
     Obstacle.mk (-55) 380 60 340 block "#7209B7"] 6.5 101 [] [] 0.

(** ** Exchanged legs *)

(** The pose with the left and the right leg exchanged. *)
Definition swapLegs (landmarks : nat -> Point.t) (i : nat) : Point.t :=
  match i with
  | 23%nat => landmarks 24%nat
  | 24%nat => landmarks 23%nat
  | 25%nat => landmarks 26%nat
  | 26%nat => landmarks 25%nat
  | 27%nat => landmarks 28%nat
  | 28%nat => landmarks 27%nat
  | _ => landmarks i
  end.

(** ** Runs without certain events *)

(** No event of the run is a press of START or Try Again. *)
Definition noStart (evs : list Event) : Prop :=
  Forall (fun ev => ev <> EvStart) evs.

(** ** Spawns and bursts *)

(** [Math.random] returns numbers of [0, 1). *)
Definition unitRandom (rand : nat -> R) : Prop := forall k, 0 <= rand k < 1.

(** An obstacle as the spawn logic makes them: at the right edge, 60 or 80
    wide, of positive height and inside the field from top to bottom. *)
Definition inField (o : Obstacle.t) : Prop :=
  Obstacle.x o = CANVAS_WIDTH /\
  (Obstacle.w o = 60 \/ Obstacle.w o = 80) /\
  0 <= Obstacle.y o /\ 0 < Obstacle.h o /\
  Obstacle.y o + Obstacle.h o <= CANVAS_HEIGHT.

(** A pillar: a block 60 wide and between 100 and 300 high, standing on the
    bottom edge or hanging from the top edge. *)
Definition isPillar (o : Obstacle.t) : Prop :=
  Obstacle.type o = block /\ Obstacle.w o = 60 /\
  100 <= Obstacle.h o < 300 /\
  (Obstacle.y o = 0 \/ Obstacle.y o + Obstacle.h o = CANVAS_HEIGHT).

(** A sparkle as a burst makes them. *)
Definition freshSparkle (s : Sparkle.t) : Prop :=
  Sparkle.x s = CANVAS_WIDTH / 2 /\ Sparkle.y s = 120 /\
  -7.5 <= Sparkle.vx s < 7.5 /\ -7.5 <= Sparkle.vy s < 7.5 /\
  3 <= Sparkle.size s < 9 /\ In (Sparkle.color s) colors /\
  Sparkle.alpha s = 1 /\ 0.01 <= Sparkle.decay s < 0.03 /\
  Sparkle.type s = star.

(** ** Cues *)

Definition isGameover (c : Sound) : bool :=
  match c with snd_gameover => true | _ => false end.

(** A cue that a frame may request. *)
Definition frameCue (c : Sound) : Prop := c = snd_gameover \/ c = snd_score.

(** ** Sparkles over frames *)

(** A sparkle as the frames leave them: made by a burst and still visible. *)
Definition liveSparkle (s : Sparkle.t) : Prop :=
  0 < Sparkle.alpha s <= 1 /\ 0.01 <= Sparkle.decay s < 0.03 /\
  3 <= Sparkle.size s < 9 /\ In (Sparkle.color s) colors /\ Sparkle.type s = star.

(** The sparkles after one frame. *)
Definition fade (l : list Sparkle.t) : list Sparkle.t :=
  flat_map (fun s => match stepSparkle s with Some s' => [s'] | None => [] end) l.

(** A game over with a single sparkle fresh from a burst. *)
Definition burstState : Engine :=
  set_sparklesRef [Sparkle.mk 640 120 0 0 3 "#FFD700" 1 0.02 star]
    (set_gameState GAME_OVER (initialEngine SQUAT)).

(** ** Hard games *)

(** A Hard game played through the camera, the avatar in the field and not
    moving up, the smoothed intensity in [0, 1]. *)
Definition hardCamera (st : Engine) : Prop :=
  difficulty st = HARD /\ gameState st <> TUTORIAL /\ isSimulation st = false /\
  0 <= intensityRef st <= 1 /\ 0 <= playerVelocity st /\
  0 <= playerY st <= CANVAS_HEIGHT - 60.

(** A Hard game as START leaves it. *)
Definition hardState : Engine :=
  mkEngine SQUAT PLAYING HARD 0 0 false 0 360 0 0 false [] 10 0 [] [] 0.

(** ** The prototype's loop, by the shape of the array *)

(** What one pass of the prototype's loop makes of an array, and the points
    it scores: the obstacle after one that leaves is passed over. *)
Fixpoint sweep (s : R) (arr : list Prototype.Block.t) : list Prototype.Block.t * Z :=
  match arr with
  | [] => ([], 0%Z)
  | o :: rest =>
      let o' := Prototype.Block.set_x (Prototype.Block.x o - s) o in
      if Prototype.Block.x o' + Prototype.Block.w o' <? 0 then
        match rest with
        | [] => ([], 1%Z)
        | b :: rest' => let '(r, n) := sweep s rest' in (b :: r, (1 + n)%Z)
        end
      else let '(r, n) := sweep s rest in (o' :: r, n)
  end.

(** * Properties *)

(** ** The comparisons *)

Lemma Rgtb_true (a b : R) : (a >? b) = true <-> a > b.
Proof. unfold Rgtb; destruct (Rgt_dec a b); split; intros; try discriminate; tauto. Qed.

Lemma Rgtb_false (a b : R) : (a >? b) = false <-> a <= b.
Proof. unfold Rgtb; destruct (Rgt_dec a b); split; intros; try discriminate; try lra; reflexivity. Qed.

Lemma Rltb_true (a b : R) : (a <? b) = true <-> a < b.
Proof. unfold Rltb; destruct (Rlt_dec a b); split; intros; try discriminate; tauto. Qed.

Lemma Rltb_false (a b : R) : (a <? b) = false <-> b <= a.
Proof. unfold Rltb; destruct (Rlt_dec a b); split; intros; try discriminate; try lra; reflexivity. Qed.

Lemma Rleb_true (a b : R) : (a <=? b) = true <-> a <= b.
Proof. unfold Rleb; destruct (Rle_dec a b); split; intros; try discriminate; tauto. Qed.

Lemma Rleb_false (a b : R) : (a <=? b) = false <-> b < a.
Proof. unfold Rleb; destruct (Rle_dec a b); split; intros; try discriminate; try lra; reflexivity. Qed.

(** Decide every comparison of reals in sight, keeping the facts. *)
Ltac rcompare :=
  repeat match goal with
  | |- context [Rgtb ?a ?b] =>
      let E := fresh "E" in
      destruct (Rgtb a b) eqn:E; [apply Rgtb_true in E | apply Rgtb_false in E]
  | |- context [Rltb ?a ?b] =>
      let E := fresh "E" in
      destruct (Rltb a b) eqn:E; [apply Rltb_true in E | apply Rltb_false in E]
  | |- context [Rleb ?a ?b] =>
      let E := fresh "E" in
      destruct (Rleb a b) eqn:E; [apply Rleb_true in E | apply Rleb_false in E]
  end.

(** Decide every [Math.max] and [Math.min] in sight, the innermost first. *)
Ltac rminmax :=
  unfold Rmax, Rmin;
  repeat match goal with
  | |- context [Rle_dec ?a ?b] =>
      lazymatch a with
      | context [Rle_dec _ _] => fail
      | _ => lazymatch b with
             | context [Rle_dec _ _] => fail
             | _ => destruct (Rle_dec a b)
             end
      end
  end.

(** ** normalize *)

Lemma clamp01_range (t : R) : 0 <= clamp01 t <= 1.
Proof. unfold clamp01; rminmax; lra. Qed.

Lemma clamp01_flip (t : R) : 1 - clamp01 t = clamp01 (1 - t).
Proof. unfold clamp01; rminmax; lra. Qed.

Lemma normalize_clamp (v lo hi : R) (inverse : bool) :
  normalize v lo hi inverse =
  if inverse then 1 - clamp01 ((v - lo) / (hi - lo)) else clamp01 ((v - lo) / (hi - lo)).
Proof. reflexivity. Qed.

Lemma normalize_range (v lo hi : R) (inverse : bool) : 0 <= normalize v lo hi inverse <= 1.
Proof.
  rewrite normalize_clamp.
  pose proof (clamp01_range ((v - lo) / (hi - lo))).
  destruct inverse; lra.
Qed.

(** With the range given backwards and [inverse] set, the two inversions
    cancel: the result rises with the value. *)
Lemma normalize_swapped (v lo hi : R) :
  lo <> hi -> normalize v hi lo true = normalize v lo hi false.
Proof.
  intros Hne. rewrite !normalize_clamp, clamp01_flip. f_equal. field.
  split; intros H; apply Hne; lra.
Qed.

(** C8. For [min < max]: a value at or below [min] normalizes to 0 and a value
    at or above [max] to 1 (without [inverse]), and for every value the result
    with [inverse] is 1 minus the result without it. *)
Theorem normalize_primitive (value min max : R) :
  min < max ->
  (value <= min -> normalize value min max false = 0) /\
  (max <= value -> normalize value min max false = 1) /\
  normalize value min max true = 1 - normalize value min max false.
Proof.
  intros Hlt.
  assert (Hinv : 0 < / (max - min)) by (apply Rinv_0_lt_compat; lra).
  repeat split.
  - intros Hle. unfold normalize, Rdiv.
    assert ((value - min) * / (max - min) <= 0) by nra.
    rminmax; lra.
  - intros Hge. unfold normalize.
    assert (1 <= (value - min) / (max - min)).
    { apply Rmult_le_reg_r with (max - min); [lra|].
      unfold Rdiv. rewrite Rmult_assoc, Rinv_l by lra. lra. }
    rminmax; lra.
Qed.

Lemma normalize_primitive_witness :
  normalize 60 70 160 false = 0 /\
  normalize 200 70 160 false = 1 /\
  normalize 90 70 160 true = 1 - normalize 90 70 160 false.
Proof.
  assert (H : 70 < 160) by lra.
  destruct (normalize_primitive 60 70 160 H) as [H1 _].
  destruct (normalize_primitive 200 70 160 H) as [_ [H2 _]].
  destruct (normalize_primitive 90 70 160 H) as [_ [_ H3]].
  split; [apply H1; lra | split; [apply H2; lra | exact H3]].
Defined.

(** ** The signal interpreter *)

(** The raw intensity is a number of [0, 1] whenever it comes from a pose. *)
Lemma currentIntensity_range (results : option (nat -> Point.t)) (st : Engine) :
  isSimulation st = false -> 0 <= currentIntensity results st <= 1.
Proof.
  intros Hsim. unfold currentIntensity. rewrite Hsim.
  destruct results as [landmarks|]; [|lra].
  destruct (mode st).
  - apply normalize_range.
  - destruct (_ && _); [lra|]. destruct (_ || _); lra.
  - pose proof (normalize_range
      (calculateAngle (landmarks 23%nat) (landmarks 25%nat) (landmarks 27%nat)) 160 90 true).
    pose proof (normalize_range
      (calculateAngle (landmarks 24%nat) (landmarks 26%nat) (landmarks 28%nat)) 160 90 true).
    rminmax; lra.
Qed.

(** The squat mapping as the code has it: the range is passed as (160, 70)
    together with [inverse], which makes it the rising map of [70, 160]. *)
Lemma squat_mapping (landmarks : nat -> Point.t) (st : Engine) :
  isSimulation st = false ->
  mode st = SQUAT ->
  currentIntensity (Some landmarks) st =
  normalize (calculateAngle (landmarks 23%nat) (landmarks 25%nat) (landmarks 27%nat))
    70 160 false.
Proof.
  intros Hsim Hmode. unfold currentIntensity. rewrite Hsim, Hmode.
  apply normalize_swapped. lra.
Qed.

Lemma atan2_vertical_up (y : R) : y < 0 -> atan2 y 0 = - (PI / 2).
Proof. intros Hy. unfold atan2. rcompare; lra. Qed.

Lemma atan2_vertical_down (y : R) : 0 < y -> atan2 y 0 = PI / 2.
Proof. intros Hy. unfold atan2. rcompare; lra. Qed.

Lemma atan2_horizontal (x : R) : 0 < x -> atan2 0 x = 0.
Proof.
  intros Hx. unfold atan2. rcompare; try lra.
  unfold Rdiv. rewrite Rmult_0_l. apply atan_0.
Qed.

Lemma bentLeg_angle (vis : option R) :
  calculateAngle (bentLeg vis 23) (bentLeg vis 25) (bentLeg vis 27) = 90.
Proof.
  unfold calculateAngle; simpl.
  replace (0.7 - 0.7) with 0 by lra.
  replace (0.5 - 0.5) with 0 by lra.
  rewrite atan2_horizontal by lra.
  rewrite atan2_vertical_up by lra.
  pose proof PI_RGT_0 as Hpi.
  replace ((0 - - (PI / 2)) * 180 / PI) with 90 by (field; lra).
  rewrite Rabs_pos_eq by lra.
  rcompare; lra.
Qed.

Lemma straightLegs_angle (vis : option R) (hip knee ankle : nat) :
  (hip, knee, ankle) = (23, 25, 27)%nat \/ (hip, knee, ankle) = (24, 26, 28)%nat ->
  calculateAngle (straightLegs vis hip) (straightLegs vis knee) (straightLegs vis ankle) = 180.
Proof.
  intros [H|H]; injection H as -> -> ->;
    unfold calculateAngle; simpl;
    replace (0.5 - 0.5) with 0 by lra;
    rewrite atan2_vertical_down by lra;
    rewrite atan2_vertical_up by lra;
    pose proof PI_RGT_0 as Hpi;
    (replace ((PI / 2 - - (PI / 2)) * 180 / PI) with 180 by (field; lra));
    rewrite Rabs_pos_eq by lra;
    rcompare; lra.
Qed.

(** C1. A squat pose whose hip-knee-ankle angle is 90 degrees gets the raw
    intensity 2/9 (about 0.222) from the code, where
    normalize(90, 70, 160, true) is 7/9 (about 0.778): the code's mapping is
    1 minus the stated one. *)
Theorem squat_right_angle_intensity (landmarks : nat -> Point.t) (st : Engine) :
  isSimulation st = false ->
  mode st = SQUAT ->
  calculateAngle (landmarks 23%nat) (landmarks 25%nat) (landmarks 27%nat) = 90 ->
  currentIntensity (Some landmarks) st = 2 / 9 /\
  normalize 90 70 160 true = 7 / 9 /\
  currentIntensity (Some landmarks) st = 1 - normalize 90 70 160 true.
Proof.
  intros Hsim Hmode Hangle.
  rewrite (squat_mapping _ _ Hsim Hmode), Hangle.
  unfold normalize.
  replace ((90 - 70) / (160 - 70)) with (2 / 9) by lra.
  rminmax; lra.
Qed.

Lemma squat_right_angle_witness :
  currentIntensity (Some (bentLeg (Some 0.9))) (initialEngine SQUAT) = 2 / 9 /\
  normalize 90 70 160 true = 7 / 9 /\
  currentIntensity (Some (bentLeg (Some 0.9))) (initialEngine SQUAT)
  = 1 - normalize 90 70 160 true.
Proof.
  apply (squat_right_angle_intensity (bentLeg (Some 0.9)) (initialEngine SQUAT)).
  - reflexivity.
  - reflexivity.
  - apply bentLeg_angle.
Defined.

(** C6, as stated, fails: with every landmark at confidence 0.1, a player
    standing with straight legs gets raw intensity 1, in Squat mode and in
    Lunge mode. *)
Lemma low_confidence_intensity_not_zero :
  Forall (fun i => lowConfidence (straightLegs (Some 0.1) i)) (requiredLandmarks SQUAT) /\
  Forall (fun i => lowConfidence (straightLegs (Some 0.1) i)) (requiredLandmarks LUNGE) /\
  currentIntensity (Some (straightLegs (Some 0.1))) (initialEngine SQUAT) = 1 /\
  currentIntensity (Some (straightLegs (Some 0.1))) (initialEngine LUNGE) = 1.
Proof.
  assert (Hlow : forall i, lowConfidence (straightLegs (Some 0.1) i)).
  { intros i. unfold lowConfidence.
    assert (Hv : Point.visibility (straightLegs (Some 0.1) i) = Some 0.1).
    { unfold straightLegs.
      repeat (destruct i as [|i]; [reflexivity|]). reflexivity. }
    rewrite Hv. lra. }
  split; [|split; [|split]].
  - apply Forall_forall. intros i _. apply Hlow.
  - apply Forall_forall. intros i _. apply Hlow.
  - unfold currentIntensity; cbn [isSimulation mode initialEngine].
    rewrite straightLegs_angle by (left; reflexivity).
    unfold normalize. replace ((180 - 160) / (70 - 160)) with (- (2 / 9)) by lra.
    rminmax; lra.
  - unfold currentIntensity; cbn [isSimulation mode initialEngine].
    rewrite !straightLegs_angle by (first [left; reflexivity | right; reflexivity]).
    unfold normalize. replace ((180 - 160) / (90 - 160)) with (- (2 / 7)) by lra.
    rminmax; lra.
Qed.

(** C6, amended. The raw intensity is computed from the coordinates of the
    landmarks alone: two pose samples with the same coordinates get the same
    raw intensity whatever their visibility confidences.  The raw intensity
    degrades to 0 when the sample has no landmarks. *)
Theorem intensity_ignores_visibility (st : Engine) (l l' : nat -> Point.t) :
  (forall i, Point.x (l i) = Point.x (l' i) /\ Point.y (l i) = Point.y (l' i)) ->
  isSimulation st = false ->
  currentIntensity (Some l) st = currentIntensity (Some l') st /\
  currentIntensity None st = 0.
Proof.
  intros Hsame Hsim.
  assert (Hx : forall i, Point.x (l i) = Point.x (l' i)) by (intros i; apply Hsame).
  assert (Hy : forall i, Point.y (l i) = Point.y (l' i)) by (intros i; apply Hsame).
  unfold currentIntensity, calculateAngle. rewrite Hsim.
  split; [|reflexivity].
  rewrite !Hx, !Hy. reflexivity.
Qed.

Lemma intensity_ignores_visibility_witness :
  currentIntensity (Some (straightLegs (Some 0.1))) (initialEngine LUNGE)
  = currentIntensity (Some (straightLegs (Some 0.9))) (initialEngine LUNGE) /\
  currentIntensity None (initialEngine LUNGE) = 0.
Proof.
  apply (intensity_ignores_visibility (initialEngine LUNGE)
           (straightLegs (Some 0.1)) (straightLegs (Some 0.9))).
  - intros i. unfold straightLegs.
    repeat (destruct i as [|i]; [split; reflexivity|]). split; reflexivity.
  - reflexivity.
Defined.

(** ** The intensity smoother *)

Lemma onPoseResults_intensityRef (results : option (nat -> Point.t)) (st : Engine) :
  intensityRef (onPoseResults results st)
  = intensityRef st * 0.8 + currentIntensity results st * 0.2.
Proof.
  unfold onPoseResults.
  destruct (_ && _); [reflexivity|].
  destruct (_ <? _); reflexivity.
Qed.

(** C7. The smoothed intensity after a pose result is exactly
    prev * 0.8 + raw * 0.2; when prev and raw lie in [0, 1], so does it. *)
Theorem smoothing_formula (prev raw : R) (results : option (nat -> Point.t)) (st : Engine) :
  intensityRef st = prev ->
  currentIntensity results st = raw ->
  intensityRef (onPoseResults results st) = prev * 0.8 + raw * 0.2 /\
  (0 <= prev <= 1 -> 0 <= raw <= 1 -> 0 <= intensityRef (onPoseResults results st) <= 1).
Proof.
  intros Hprev Hraw. rewrite onPoseResults_intensityRef, Hprev, Hraw.
  split; [reflexivity|]. intros Hp Hr. lra.
Qed.

Lemma smoothing_formula_witness :
  intensityRef (onPoseResults (Some (straightLegs None)) (initialEngine SQUAT))
  = 0 * 0.8 + 1 * 0.2 /\
  (0 <= 0 <= 1 -> 0 <= 1 <= 1 ->
   0 <= intensityRef (onPoseResults (Some (straightLegs None)) (initialEngine SQUAT)) <= 1).
Proof.
  apply (smoothing_formula 0 1 (Some (straightLegs None)) (initialEngine SQUAT)).
  - reflexivity.
  - unfold currentIntensity; cbn [isSimulation mode initialEngine].
    rewrite straightLegs_angle by (left; reflexivity).
    unfold normalize. replace ((180 - 160) / (70 - 160)) with (- (2 / 9)) by lra.
    rminmax; lra.
Defined.

(** ** What each part of a frame leaves alone *)

(** Split on every conditional in sight. *)
Ltac branches :=
  repeat match goal with
  | |- context [if ?c then _ else _] => destruct c
  end.

Section Frames.

Variable rand : nat -> R.

Lemma pushSparkle_kept (st : Engine) : kept (pushSparkle rand st) = kept st.
Proof. reflexivity. Qed.

Lemma pushSparkle_cells (st : Engine) :
  let st' := pushSparkle rand st in
  gameState st' = gameState st /\ score st' = score st /\ highScore st' = highScore st /\
  obstacles st' = obstacles st /\ gameSpeed st' = gameSpeed st /\ played st' = played st.
Proof. repeat split. Qed.

Lemma createSparkles_kept (st : Engine) : kept (createSparkles rand st) = kept st.
Proof.
  unfold createSparkles. generalize 40%nat as n.
  induction n as [|n IH]; [reflexivity|].
  rewrite Nat.iter_succ, pushSparkle_kept. exact IH.
Qed.

Lemma createSparkles_cells (st : Engine) :
  let st' := createSparkles rand st in
  gameState st' = gameState st /\ score st' = score st /\ highScore st' = highScore st /\
  obstacles st' = obstacles st /\ gameSpeed st' = gameSpeed st /\ played st' = played st.
Proof.
  unfold createSparkles. generalize 40%nat as n.
  induction n as [|n IH]; [repeat split|].
  rewrite Nat.iter_succ.
  destruct (pushSparkle_cells (Nat.iter n (pushSparkle rand) st))
    as (H1 & H2 & H3 & H4 & H5 & H6).
  cbv zeta in *. rewrite H1, H2, H3, H4, H5, H6. exact IH.
Qed.

Lemma kept_set_score (v : Z) (st : Engine) : kept (set_score v st) = kept st.
Proof. reflexivity. Qed.

Lemma incrementScore_kept (st : Engine) : kept (incrementScore rand st) = kept st.
Proof.
  unfold incrementScore. rewrite kept_set_score.
  destruct (_ && _); [|reflexivity].
  rewrite createSparkles_kept. reflexivity.
Qed.

Lemma incrementScore_cells (st : Engine) :
  let st' := incrementScore rand st in
  gameState st' = gameState st /\ score st' = (score st + 1)%Z /\
  highScore st' = highScore st /\ obstacles st' = obstacles st /\
  gameSpeed st' = gameSpeed st.
Proof.
  unfold incrementScore. destruct (_ && _); [|repeat split].
  destruct (createSparkles_cells (playSound snd_score st)) as (H1 & H2 & H3 & H4 & H5 & H6).
  cbv zeta in *. cbn [gameState score highScore obstacles gameSpeed set_score].
  rewrite H1, H3, H4, H5. repeat split.
Qed.

Lemma spawnObstacles_kept (st : Engine) : kept (spawnObstacles rand st) = kept st.
Proof.
  unfold spawnObstacles, random. destruct (spawnDue st); [|reflexivity].
  cbv beta iota zeta. branches; reflexivity.
Qed.

Lemma updateObstacles_kept (score0 highScore0 : Z) (obs : list Obstacle.t) (st : Engine) :
  kept (snd (updateObstacles rand score0 highScore0 obs st)) = kept st.
Proof.
  induction obs as [|o later IH]; [reflexivity|].
  simpl. destruct (updateObstacles rand score0 highScore0 later st) as [kept' st'].
  simpl in IH. rewrite <- IH.
  branches; cbn [snd]; rewrite ?incrementScore_kept; reflexivity.
Qed.

Lemma updateSparkles_kept (st : Engine) : kept (updateSparkles st) = kept st.
Proof. reflexivity. Qed.

End Frames.

(** ** Avatar physics *)

Lemma playerPhysics_bounds (st : Engine) : avatarInBounds (playerPhysics st).
Proof.
  unfold avatarInBounds, playerPhysics, CANVAS_HEIGHT. cbv zeta. cbn.
  match goal with
  | |- context [Rmax ?a ?b] =>
      assert (Hv : -15 <= Rmax a b <= 15) by (rminmax; lra);
      set (v := Rmax a b) in *; clearbody v
  end.
  destruct (_ >? _) eqn:E1; cbn; destruct (_ <? _) eqn:E2; cbn;
    rewrite ?Rgtb_true, ?Rgtb_false, ?Rltb_true, ?Rltb_false in *; lra.
Qed.

Section Run.

Variable rand : nat -> R.

Lemma playingFrame_kept (st : Engine) :
  kept (playingFrame rand st) = kept (playerPhysics st).
Proof.
  unfold playingFrame. cbv zeta.
  pose proof (updateObstacles_kept rand (score st) (highScore st)
                (obstacles (spawnObstacles rand (playerPhysics st)))
                (spawnObstacles rand (playerPhysics st))) as H.
  destruct (updateObstacles _ _ _ _ _) as [kept' st'].
  cbn [snd] in H. rewrite spawnObstacles_kept in H. rewrite <- H. reflexivity.
Qed.

Lemma updateGame_playing (st : Engine) :
  gameState st = PLAYING ->
  updateGame rand st
  = set_frameRef (frameRef (updateSparkles (playingFrame rand st)) + 1)
      (updateSparkles (playingFrame rand st)).
Proof. intros H. unfold updateGame. rewrite H. reflexivity. Qed.

Lemma updateGame_idle (st : Engine) :
  gameState st <> PLAYING ->
  updateGame rand st = set_frameRef (frameRef (updateSparkles st) + 1) (updateSparkles st).
Proof. intros H. unfold updateGame. destruct (gameState st); congruence. Qed.

Lemma updateGame_avatar (st : Engine) :
  playerY (updateGame rand st)
  = match gameState st with
    | PLAYING => playerY (playerPhysics st)
    | _ => playerY st
    end /\
  playerVelocity (updateGame rand st)
  = match gameState st with
    | PLAYING => playerVelocity (playerPhysics st)
    | _ => playerVelocity st
    end.
Proof.
  destruct (gameState st) eqn:E;
    try (rewrite updateGame_idle by congruence; split; reflexivity).
  rewrite updateGame_playing by assumption.
  pose proof (playingFrame_kept st) as H. unfold kept in H.
  assert (Hy : playerY (playingFrame rand st) = playerY (playerPhysics st)) by congruence.
  assert (Hv : playerVelocity (playingFrame rand st) = playerVelocity (playerPhysics st))
    by congruence.
  split; [rewrite <- Hy | rewrite <- Hv]; reflexivity.
Qed.

Lemma updateGame_bounds (st : Engine) :
  gameState st = PLAYING -> avatarInBounds (updateGame rand st).
Proof.
  intros H. destruct (updateGame_avatar st) as [Hy Hv]. rewrite H in Hy, Hv.
  unfold avatarInBounds. rewrite Hy, Hv. apply playerPhysics_bounds.
Qed.

Lemma onPoseResults_avatar (results : option (nat -> Point.t)) (st : Engine) :
  playerY (onPoseResults results st) = playerY st /\
  playerVelocity (onPoseResults results st) = playerVelocity st.
Proof. unfold onPoseResults. branches; split; reflexivity. Qed.

Lemma step_bounds (ev : Event) (st : Engine) :
  avatarInBounds st -> avatarInBounds (step rand ev st).
Proof.
  intros Hin. destruct ev as [results| | |d|val]; cbn [step].
  - destruct (onPoseResults_avatar results st) as [Hy Hv].
    unfold avatarInBounds. rewrite Hy, Hv. exact Hin.
  - destruct (gameState st) eqn:E; try (apply updateGame_bounds; assumption);
      destruct (updateGame_avatar st) as [Hy Hv]; rewrite E in Hy, Hv;
      unfold avatarInBounds; rewrite Hy, Hv; exact Hin.
  - assert (Hstart : avatarInBounds (startGame st)).
    { unfold avatarInBounds, startGame, CANVAS_HEIGHT. cbv zeta.
      destruct (difficulty _); cbn; lra. }
    destruct (gameState st); assumption.
  - destruct (gameState st); exact Hin.
  - destruct (isSimulation st); exact Hin.
Qed.

Lemma run_bounds (evs : list Event) (st : Engine) :
  avatarInBounds st -> avatarInBounds (run rand evs st).
Proof.
  revert st. induction evs as [|ev evs IH]; intros st Hin; [exact Hin|].
  apply IH, step_bounds, Hin.
Qed.

Lemma transitions_step (evs : list Event) (st : Engine) (ev : Event) (pre post : Engine) :
  In (ev, pre, post) (transitions rand evs st) -> post = step rand ev pre.
Proof.
  revert st. induction evs as [|e evs IH]; intros st Hin; [contradiction|].
  destruct Hin as [Heq|Hin]; [congruence|]. exact (IH _ Hin).
Qed.

(** C2. In every run, each animation frame executed while Playing leaves the
    avatar's vertical position in [0, fieldHeight - avatarSize], that is
    [0, 660], and its vertical velocity in [-15, 15]; and a run that starts
    within these bounds stays within them. *)
Theorem avatar_bounds (evs : list Event) (st pre post : Engine) :
  In (EvFrame, pre, post) (transitions rand evs st) ->
  gameState pre = PLAYING ->
  avatarInBounds post /\ (avatarInBounds st -> avatarInBounds (run rand evs st)).
Proof.
  intros Hin Hplaying. split; [|apply run_bounds].
  rewrite (transitions_step _ _ _ _ _ Hin). apply updateGame_bounds, Hplaying.
Qed.

End Run.

Lemma avatar_bounds_witness :
  let rand := fun _ : nat => 0.5 in
  let pre := run rand [EvStart; EvSlider 1] (initialEngine SQUAT) in
  avatarInBounds (updateGame rand pre) /\
  (avatarInBounds (initialEngine SQUAT) ->
   avatarInBounds (run rand [EvStart; EvSlider 1; EvFrame] (initialEngine SQUAT))).
Proof.
  intros rand pre.
  apply (avatar_bounds rand [EvStart; EvSlider 1; EvFrame] (initialEngine SQUAT) pre).
  - right. right. left. reflexivity.
  - reflexivity.
Defined.

(** ** The exertion latch *)

Lemma app_one_neq {A : Type} (l : list A) (a : A) : l ++ [a] <> l.
Proof.
  intros H. apply (f_equal (@length A)) in H.
  rewrite length_app in H. simpl in H. lia.
Qed.

Lemma onPoseResults_latch (results : option (nat -> Point.t)) (st : Engine) :
  wasJumpingRef (onPoseResults results st)
  = if (intensityRef (onPoseResults results st) >? 0.6) && negb (wasJumpingRef st) then true
    else if intensityRef (onPoseResults results st) <? 0.4 then false
    else wasJumpingRef st.
Proof.
  rewrite onPoseResults_intensityRef. unfold onPoseResults. cbn.
  destruct (_ && _); [reflexivity|]. destruct (_ <? _); reflexivity.
Qed.

Lemma onPoseResults_played (results : option (nat -> Point.t)) (st : Engine) :
  played (onPoseResults results st)
  = if (intensityRef (onPoseResults results st) >? 0.6) && negb (wasJumpingRef st)
    then played st ++ [snd_jump]
    else played st.
Proof.
  rewrite onPoseResults_intensityRef. unfold onPoseResults. cbn.
  destruct (_ && _); [reflexivity|]. destruct (_ <? _); reflexivity.
Qed.

Lemma jumpFires_iff (results : option (nat -> Point.t)) (st : Engine) :
  jumpFires results st <->
  intensityRef (onPoseResults results st) > 0.6 /\ wasJumpingRef st = false.
Proof.
  unfold jumpFires. rewrite onPoseResults_played.
  destruct (_ >? _) eqn:E; [apply Rgtb_true in E | apply Rgtb_false in E];
    destruct (wasJumpingRef st); cbn; split; intros H;
    try (symmetry in H; apply app_one_neq in H; contradiction);
    try (destruct H; (discriminate || lra)); auto.
Qed.

Lemma jumpFires_latch (results : option (nat -> Point.t)) (st : Engine) :
  jumpFires results st -> wasJumpingRef (onPoseResults results st) = true.
Proof.
  intros H. apply jumpFires_iff in H. destruct H as [HI Hl].
  rewrite onPoseResults_latch, Hl. apply Rgtb_true in HI. rewrite HI. reflexivity.
Qed.

Section Latch.

Variable rand : nat -> R.

Lemma updateGame_kept (st : Engine) :
  (mode (updateGame rand st), difficulty (updateGame rand st),
   isSimulation (updateGame rand st), simIntensity (updateGame rand st),
   intensityRef (updateGame rand st), wasJumpingRef (updateGame rand st))
  = (mode st, difficulty st, isSimulation st, simIntensity st, intensityRef st,
     wasJumpingRef st) /\
  frameRef (updateGame rand st) = (frameRef st + 1)%Z.
Proof.
  assert (Hp : kept (playerPhysics st)
               = (mode st, difficulty st, isSimulation st, simIntensity st,
                  intensityRef st, wasJumpingRef st, frameRef st,
                  playerY (playerPhysics st), playerVelocity (playerPhysics st))).
  { unfold kept, playerPhysics. cbv zeta. branches; reflexivity. }
  destruct (gameState st) eqn:E;
    try (rewrite updateGame_idle by congruence; split; reflexivity).
  rewrite updateGame_playing by assumption.
  pose proof (playingFrame_kept rand st) as H. rewrite Hp in H. unfold kept in H.
  cbn [mode difficulty isSimulation simIntensity intensityRef wasJumpingRef frameRef
       set_frameRef updateSparkles set_sparklesRef].
  split; congruence.
Qed.

Lemma step_latch (ev : Event) (st : Engine) :
  (forall results, ev <> EvPose results) ->
  wasJumpingRef (step rand ev st) = wasJumpingRef st.
Proof.
  intros Hev. destruct ev as [results| | |d|val]; cbn [step].
  - exfalso. exact (Hev results eq_refl).
  - destruct (updateGame_kept st) as [H _]. congruence.
  - unfold startGame. cbv zeta. destruct (gameState st); try reflexivity;
      branches; destruct (difficulty _); reflexivity.
  - destruct (gameState st); reflexivity.
  - destruct (isSimulation st); reflexivity.
Qed.

(** While the latch is set it stays set, unless some pose result brings the
    smoothed intensity below 0.4. *)
Lemma latch_held (evs : list Event) (st : Engine) :
  wasJumpingRef st = true ->
  (exists results pre post,
     In (EvPose results, pre, post) (transitions rand evs st) /\ intensityRef post < 0.4) \/
  wasJumpingRef (run rand evs st) = true.
Proof.
  revert st. induction evs as [|ev evs IH]; intros st Hl; [right; exact Hl|].
  assert (Hnext : wasJumpingRef (step rand ev st) = true ->
                  (exists results pre post,
                     In (EvPose results, pre, post) (transitions rand (ev :: evs) st) /\
                     intensityRef post < 0.4) \/
                  wasJumpingRef (run rand (ev :: evs) st) = true).
  { intros Hl'. destruct (IH _ Hl') as [(r & pre & post & Hin & Hlow)|Hrun].
    - left. exists r, pre, post. split; [right; exact Hin | exact Hlow].
    - right. exact Hrun. }
  destruct ev as [results| | |d|val];
    try (apply Hnext; rewrite step_latch by discriminate; exact Hl).
  destruct (Rlt_dec (intensityRef (onPoseResults results st)) 0.4) as [Hlow|Hhigh].
  - left. exists results, st, (onPoseResults results st).
    split; [left; reflexivity | exact Hlow].
  - apply Hnext. cbn [step]. rewrite onPoseResults_latch, Hl.
    rewrite andb_false_r.
    destruct (_ <? _) eqn:E; [apply Rltb_true in E; contradiction | reflexivity].
Qed.

(** C3. On a pose result the jump cue is requested exactly when the smoothed
    intensity exceeds 0.6 while the latch is false, and no other cue is
    requested; the request sets the latch; and between two requests some pose
    result brought the smoothed intensity below 0.4. *)
Theorem exertion_hysteresis
  (results : option (nat -> Point.t)) (st : Engine)
  (evs : list Event) (results' : option (nat -> Point.t)) :
  (jumpFires results st <->
   intensityRef (onPoseResults results st) > 0.6 /\ wasJumpingRef st = false) /\
  (jumpFires results st \/ played (onPoseResults results st) = played st) /\
  (jumpFires results st ->
   wasJumpingRef (onPoseResults results st) = true /\
   (jumpFires results' (run rand evs (onPoseResults results st)) ->
    exists r pre post,
      In (EvPose r, pre, post) (transitions rand evs (onPoseResults results st)) /\
      intensityRef post < 0.4)).
Proof.
  split; [apply jumpFires_iff|]. split.
  - unfold jumpFires. rewrite onPoseResults_played. destruct (_ && _); auto.
  - intros Hfire. split; [apply jumpFires_latch, Hfire|]. intros Hfire'.
    destruct (latch_held evs _ (jumpFires_latch _ _ Hfire)) as [Hex|Hset]; [exact Hex|].
    apply jumpFires_iff in Hfire'. destruct Hfire' as [_ Hclear]. congruence.
Qed.

End Latch.

Lemma straightLegs_squat (vis : option R) (st : Engine) :
  isSimulation st = false -> mode st = SQUAT ->
  currentIntensity (Some (straightLegs vis)) st = 1.
Proof.
  intros Hsim Hmode. unfold currentIntensity. rewrite Hsim, Hmode.
  rewrite straightLegs_angle by (left; reflexivity).
  unfold normalize. replace ((180 - 160) / (70 - 160)) with (- (2 / 9)) by lra.
  rminmax; lra.
Qed.

(** One pose result in Squat mode with the camera, on the cells it reads and
    writes. *)
Lemma onPoseResults_squat (results : option (nat -> Point.t)) (st : Engine) (I raw : R) :
  isSimulation st = false /\ mode st = SQUAT /\ intensityRef st = I ->
  currentIntensity results st = raw ->
  (isSimulation (onPoseResults results st) = false /\
   mode (onPoseResults results st) = SQUAT /\
   intensityRef (onPoseResults results st) = I * 0.8 + raw * 0.2) /\
  wasJumpingRef (onPoseResults results st)
  = if (I * 0.8 + raw * 0.2 >? 0.6) && negb (wasJumpingRef st) then true
    else if I * 0.8 + raw * 0.2 <? 0.4 then false
    else wasJumpingRef st.
Proof.
  intros (Hsim & Hmode & HI) Hraw.
  rewrite onPoseResults_latch, onPoseResults_intensityRef, HI, Hraw.
  split; [|reflexivity]. split; [|split; [|reflexivity]].
  - rewrite <- Hsim. unfold onPoseResults. branches; reflexivity.
  - rewrite <- Hmode. unfold onPoseResults. branches; reflexivity.
Qed.

Lemma exertion_hysteresis_witness :
  let rand := fun _ : nat => 0.5 in
  let st := set_intensityRef 0.55 (initialEngine SQUAT) in
  let up := Some (straightLegs None) in
  let evs := [EvPose None; EvPose None; EvPose None; EvPose up; EvPose up] in
  jumpFires up st /\
  jumpFires up (run rand evs (onPoseResults up st)) /\
  wasJumpingRef (onPoseResults up st) = true /\
  exists r pre post,
    In (EvPose r, pre, post) (transitions rand evs (onPoseResults up st)) /\
    intensityRef post < 0.4.
Proof.
  intros rand st up evs.
  destruct (exertion_hysteresis rand up st evs up) as (Hiff & _ & Hnext).
  (* the states of the run, one pose result at a time *)
  assert (H0 : isSimulation st = false /\ mode st = SQUAT /\ intensityRef st = 0.55)
    by (repeat split; reflexivity).
  assert (L0 : wasJumpingRef st = false) by reflexivity.
  destruct (onPoseResults_squat up st _ 1 H0) as [H1 L1];
    [apply straightLegs_squat; apply H0|].
  set (s1 := onPoseResults up st) in *.
  destruct (onPoseResults_squat None s1 _ 0 H1) as [H2 L2];
    [unfold currentIntensity; destruct H1 as (-> & _); reflexivity|].
  set (s2 := onPoseResults None s1) in *.
  destruct (onPoseResults_squat None s2 _ 0 H2) as [H3 L3];
    [unfold currentIntensity; destruct H2 as (-> & _); reflexivity|].
  set (s3 := onPoseResults None s2) in *.
  destruct (onPoseResults_squat None s3 _ 0 H3) as [H4 L4];
    [unfold currentIntensity; destruct H3 as (-> & _); reflexivity|].
  set (s4 := onPoseResults None s3) in *.
  destruct (onPoseResults_squat up s4 _ 1 H4) as [H5 L5];
    [apply straightLegs_squat; apply H4|].
  set (s5 := onPoseResults up s4) in *.
  destruct (onPoseResults_squat up s5 _ 1 H5) as [H6 L6];
    [apply straightLegs_squat; apply H5|].
  set (s6 := onPoseResults up s5) in *.
  destruct (onPoseResults_squat up s6 _ 1 H6) as [H7 _];
    [apply straightLegs_squat; apply H6|].
  set (s7 := onPoseResults up s6) in *.
  rewrite L0 in L1. rewrite L1 in L2. rewrite L2 in L3. rewrite L3 in L4.
  rewrite L4 in L5. rewrite L5 in L6.
  repeat match type of L6 with
  | context [Rgtb ?a ?b] =>
      let E := fresh "E" in
      destruct (Rgtb a b) eqn:E;
      [apply Rgtb_true in E | apply Rgtb_false in E]; try lra; cbn [andb negb] in L6
  | context [Rltb ?a ?b] =>
      let E := fresh "E" in
      destruct (Rltb a b) eqn:E;
      [apply Rltb_true in E | apply Rltb_false in E]; try lra; cbn [andb negb] in L6
  end.
  assert (F1 : jumpFires up st).
  { apply Hiff. split; [|exact L0]. destruct H1 as (_ & _ & ->). lra. }
  assert (F2 : jumpFires up (run rand evs (onPoseResults up st))).
  { change (run rand evs (onPoseResults up st)) with s6.
    apply jumpFires_iff. fold s7. split; [destruct H7 as (_ & _ & ->); lra | exact L6]. }
  destruct (Hnext F1) as [Hset Hlow].
  split; [exact F1|]. split; [exact F2|]. split; [exact Hset|]. exact (Hlow F2).
Defined.

(** ** The obstacle loop *)

Lemma playerPhysics_world (st : Engine) : world (playerPhysics st) = world st.
Proof. unfold playerPhysics. cbv zeta. branches; reflexivity. Qed.

Lemma playerPhysics_kept (st : Engine) :
  (mode (playerPhysics st), difficulty (playerPhysics st), frameRef (playerPhysics st),
   intensityRef (playerPhysics st))
  = (mode st, difficulty st, frameRef st, intensityRef st).
Proof. unfold playerPhysics. cbv zeta. branches; reflexivity. Qed.

Section Loop.

Variable rand : nat -> R.

Lemma played_set_score (v : Z) (st : Engine) : played (set_score v st) = played st.
Proof. reflexivity. Qed.

Lemma incrementScore_played (st : Engine) :
  exists l, played (incrementScore rand st) = played st ++ l.
Proof.
  unfold incrementScore. cbv zeta. rewrite played_set_score. destruct (_ && _).
  - destruct (createSparkles_cells rand (playSound snd_score st)) as (_ & _ & _ & _ & _ & H).
    cbv zeta in H. exists [snd_score]. rewrite H. reflexivity.
  - exists []. rewrite app_nil_r. reflexivity.
Qed.

(** What the loop of "Update Obstacles" computes. *)
Lemma updateObstacles_spec (score0 highScore0 : Z) (obs : list Obstacle.t) (st : Engine) :
  let r := updateObstacles rand score0 highScore0 obs st in
  fst r = survivors (gameSpeed st) obs /\
  gameSpeed (snd r) = gameSpeed st /\
  score (snd r) = (score st + Z.of_nat (length obs) - Z.of_nat (length (fst r)))%Z /\
  obstacles (snd r) = obstacles st /\
  (exists l, played (snd r) = played st ++ l /\
             (hit (playerY st) (gameSpeed st) obs = true -> In snd_gameover l)) /\
  (if hit (playerY st) (gameSpeed st) obs
   then gameState (snd r) = GAME_OVER /\
        highScore (snd r) = (if (score0 >? highScore0)%Z then score0 else highScore st)
   else gameState (snd r) = gameState st /\ highScore (snd r) = highScore st).
Proof.
  induction obs as [|o later IH].
  - cbn. repeat split; try lia. exists []. rewrite app_nil_r. split; [reflexivity|discriminate].
  - cbv zeta in IH |- *. cbn [updateObstacles].
    pose proof (updateObstacles_kept rand score0 highScore0 later st) as Hk.
    destruct (updateObstacles rand score0 highScore0 later st) as [kept' st1].
    cbn [fst snd] in IH, Hk.
    destruct IH as (Hs & Hv & Hsc & Hob & (l & Hpl & Hgo) & Hhit).
    assert (Hy : playerY st1 = playerY st) by (unfold kept in Hk; congruence).
    rewrite Hv, Hy. fold (moved (gameSpeed st) o).
    unfold survivors, hit in *. cbn [map filter existsb]. fold (exited (moved (gameSpeed st) o)).
    set (o' := moved (gameSpeed st) o) in *.
    (* the state after the collision check *)
    set (st2 := if collides (playerY st) o'
                then (if (score0 >? highScore0)%Z
                      then set_highScore score0 (set_gameState GAME_OVER (playSound snd_gameover st1))
                      else set_gameState GAME_OVER (playSound snd_gameover st1))
                else st1).
    assert (H2 : gameSpeed st2 = gameSpeed st /\ score st2 = score st1 /\
                 obstacles st2 = obstacles st /\
                 (exists l2, played st2 = played st ++ l2 /\
                    (collides (playerY st) o' || existsb (fun o0 => collides (playerY st) (moved (gameSpeed st) o0)) later = true ->
                     In snd_gameover l2)) /\
                 (if collides (playerY st) o' || existsb (fun o0 => collides (playerY st) (moved (gameSpeed st) o0)) later
                  then gameState st2 = GAME_OVER /\
                       highScore st2 = (if (score0 >? highScore0)%Z then score0 else highScore st)
                  else gameState st2 = gameState st /\ highScore st2 = highScore st)).
    { unfold st2. destruct (collides (playerY st) o'); cbn [orb].
      - assert (Hcue : exists l2, played st1 ++ [snd_gameover] = played st ++ l2 /\
                                  (true = true -> In snd_gameover l2)).
        { exists (l ++ [snd_gameover]). rewrite Hpl, app_assoc.
          split; [reflexivity|]. intros _. apply in_or_app. right. left. reflexivity. }
        destruct (score0 >? highScore0)%Z eqn:Egt; cbn.
        + repeat split; assumption.
        + repeat split; try assumption.
          destruct (existsb _ later); destruct Hhit; assumption.
      - repeat split; try assumption. exists l. split; assumption. }
    clearbody st2.
    destruct H2 as (Hv2 & Hsc2 & Hob2 & (l2 & Hpl2 & Hgo2) & Hhit2).
    destruct (exited o') eqn:Eex; cbn [fst snd negb].
    + destruct (incrementScore_cells rand st2) as (Hg & Hs3 & Hh & Ho & Hsp).
      destruct (incrementScore_played st2) as (l3 & Hpl3).
      cbv zeta in Hg, Hs3, Hh, Ho, Hsp.
      rewrite Hg, Hs3, Hh, Ho, Hsp, Hpl3, Hpl2, Hsc2, Hsc.
      repeat split; try assumption.
      * rewrite Hs. cbn [length]. lia.
      * exists (l2 ++ l3). rewrite app_assoc. split; [reflexivity|].
        intros H. apply in_or_app. left. apply Hgo2, H.
    + rewrite Hsc2, Hsc. repeat split; try assumption.
      * rewrite Hs. reflexivity.
      * rewrite Hs. cbn [length]. lia.
      * exists l2. split; assumption.
Qed.

End Loop.

(** ** One frame while Playing *)

Section Frame.

Variable rand : nat -> R.

Lemma spawnObstacles_cells (st : Engine) :
  gameState (spawnObstacles rand st) = gameState st /\
  score (spawnObstacles rand st) = score st /\
  highScore (spawnObstacles rand st) = highScore st /\
  played (spawnObstacles rand st) = played st.
Proof.
  unfold spawnObstacles, random. destruct (spawnDue st); [|repeat split].
  cbv beta iota zeta. branches; repeat split.
Qed.

Lemma spawnObstacles_idle (st : Engine) :
  spawnDue st = false -> spawnObstacles rand st = st.
Proof. intros H. unfold spawnObstacles. rewrite H. reflexivity. Qed.

Lemma speedIncrement_pos (d : Difficulty) : 0 < speedIncrement d.
Proof. destruct d; unfold speedIncrement; lra. Qed.

(** A spawn appends to the array and raises the scroll speed. *)
Lemma spawnObstacles_due (st : Engine) :
  spawnDue st = true ->
  gameSpeed (spawnObstacles rand st) = gameSpeed st + speedIncrement (difficulty st) /\
  exists o new,
    obstacles (spawnObstacles rand st) = obstacles st ++ o :: new /\
    Forall (fun o' => Obstacle.x o' = CANVAS_WIDTH) (o :: new).
Proof.
  intros H. unfold spawnObstacles, random. rewrite H.
  cbv beta iota zeta. branches; cbn; (split; [reflexivity|]);
    eexists _, _; rewrite <- ?app_assoc; (split; [reflexivity|]);
    repeat constructor.
Qed.

Lemma spawned_idle (st : Engine) :
  spawnDue st = false ->
  obstacles (spawned rand st) = obstacles st /\ gameSpeed (spawned rand st) = gameSpeed st.
Proof.
  intros H. unfold spawned.
  assert (Hd : spawnDue (playerPhysics st) = false).
  { unfold spawnDue in *. pose proof (playerPhysics_kept st) as Hk.
    replace (frameRef (playerPhysics st)) with (frameRef st) by congruence.
    replace (difficulty (playerPhysics st)) with (difficulty st) by congruence.
    exact H. }
  rewrite (spawnObstacles_idle _ Hd).
  pose proof (playerPhysics_world st) as Hw. unfold world in Hw. split; congruence.
Qed.

Lemma playingFrame_spec (st : Engine) :
  let y := playerY (playerPhysics st) in
  let s := gameSpeed (spawned rand st) in
  let obs := obstacles (spawned rand st) in
  obstacles (playingFrame rand st) = survivors s obs /\
  gameSpeed (playingFrame rand st) = s /\
  score (playingFrame rand st)
  = (score st + Z.of_nat (length obs) - Z.of_nat (length (survivors s obs)))%Z /\
  (exists l, played (playingFrame rand st) = played st ++ l /\
             (hit y s obs = true -> In snd_gameover l)) /\
  (if hit y s obs
   then gameState (playingFrame rand st) = GAME_OVER /\
        highScore (playingFrame rand st) = Z.max (highScore st) (score st)
   else gameState (playingFrame rand st) = gameState st /\
        highScore (playingFrame rand st) = highScore st).
Proof.
  cbv zeta. unfold playingFrame. cbv zeta. fold (spawned rand st).
  pose proof (updateObstacles_spec rand (score st) (highScore st)
                (obstacles (spawned rand st)) (spawned rand st)) as H.
  cbv zeta in H.
  destruct (updateObstacles rand (score st) (highScore st) (obstacles (spawned rand st))
              (spawned rand st)) as [kept' st'].
  cbn [fst snd] in H. destruct H as (Hs & Hv & Hsc & _ & Hpl & Hhit).
  destruct (spawnObstacles_cells (playerPhysics st)) as (Hg1 & Hs1 & Hh1 & Hp1).
  fold (spawned rand st) in Hg1, Hs1, Hh1, Hp1.
  pose proof (playerPhysics_world st) as Hw. unfold world in Hw.
  assert (Hy : playerY (spawned rand st) = playerY (playerPhysics st)).
  { pose proof (spawnObstacles_kept rand (playerPhysics st)) as Hk.
    unfold kept in Hk. unfold spawned. congruence. }
  rewrite Hy in *.
  replace (score (spawned rand st)) with (score st) in Hsc by congruence.
  replace (played (spawned rand st)) with (played st) in Hpl by congruence.
  replace (gameState (spawned rand st)) with (gameState st) in Hhit by congruence.
  replace (highScore (spawned rand st)) with (highScore st) in Hhit by congruence.
  cbn [obstacles gameSpeed score played gameState highScore set_obstacles].
  rewrite <- Hs.
  split; [reflexivity|]. split; [exact Hv|]. split; [exact Hsc|]. split; [exact Hpl|].
  destruct (hit _ _ _); [|exact Hhit].
  destruct Hhit as [Hg Hh]. split; [exact Hg|]. rewrite Hh.
  destruct (Z.gtb_spec (score st) (highScore st)); lia.
Qed.

(** The cells of a Playing frame other than the sparkles and the counter. *)
Lemma updateGame_playing_cells (st : Engine) :
  gameState st = PLAYING ->
  gameState (updateGame rand st) = gameState (playingFrame rand st) /\
  score (updateGame rand st) = score (playingFrame rand st) /\
  highScore (updateGame rand st) = highScore (playingFrame rand st) /\
  obstacles (updateGame rand st) = obstacles (playingFrame rand st) /\
  gameSpeed (updateGame rand st) = gameSpeed (playingFrame rand st) /\
  played (updateGame rand st) = played (playingFrame rand st).
Proof. intros H. rewrite updateGame_playing by assumption. repeat split. Qed.

Lemma survivors_hit (y s : R) (obs : list Obstacle.t) :
  Exists (fun o => collides y o = true) (survivors s obs) -> hit y s obs = true.
Proof.
  intros H. apply Exists_exists in H. destruct H as (o' & Hin & Hc).
  unfold survivors in Hin. apply filter_In in Hin. destruct Hin as [Hin _].
  apply in_map_iff in Hin. destruct Hin as (o & <- & Hin).
  unfold hit. apply existsb_exists. exists o. split; assumption.
Qed.

(** C5. A Playing frame in which the avatar's box overlaps the rectangle of
    some obstacle of the array ends with the game state GameOver, a gameover
    cue among the cues requested in the frame, and the high score at the
    maximum of the old high score and the score, the score being the one the
    frame started with. *)
Theorem collision_ends_run (st : Engine) :
  gameState st = PLAYING ->
  Exists (fun o => collides (playerY (updateGame rand st)) o = true)
    (obstacles (updateGame rand st)) ->
  gameState (updateGame rand st) = GAME_OVER /\
  (exists l, played (updateGame rand st) = played st ++ l /\ In snd_gameover l) /\
  highScore (updateGame rand st) = Z.max (highScore st) (score st).
Proof.
  intros Hplaying Hover.
  destruct (updateGame_playing_cells st Hplaying) as (Hg & _ & Hh & Ho & _ & Hp).
  destruct (updateGame_avatar rand st) as [Hy _]. rewrite Hplaying in Hy.
  destruct (playingFrame_spec st) as (Hobs & _ & _ & (l & Hpl & Hcue) & Hhit).
  rewrite Hy, Ho, Hobs in Hover. apply survivors_hit in Hover.
  rewrite Hover in Hhit. destruct Hhit as [Hgo Hmax].
  rewrite Hg, Hh, Hp. split; [exact Hgo|]. split; [|exact Hmax].
  exists l. split; [exact Hpl | exact (Hcue Hover)].
Qed.

End Frame.

Lemma playerPhysics_free (st : Engine) :
  0 <= playerY st + nextVelocity st <= CANVAS_HEIGHT - 60 ->
  playerY (playerPhysics st) = playerY st + nextVelocity st /\
  playerVelocity (playerPhysics st) = nextVelocity st.
Proof.
  unfold playerPhysics, nextVelocity, CANVAS_HEIGHT. cbv zeta. cbn.
  set (v := Rmax _ _). intros Hy.
  destruct (_ >? _) eqn:E1; [apply Rgtb_true in E1; lra|]. cbn.
  destruct (_ <? _) eqn:E2; [apply Rltb_true in E2; lra|]. split; reflexivity.
Qed.

Lemma playerPhysics_floor (st : Engine) :
  playerY st + nextVelocity st > CANVAS_HEIGHT - 60 ->
  playerY (playerPhysics st) = CANVAS_HEIGHT - 60 /\
  playerVelocity (playerPhysics st) = 0.
Proof.
  unfold playerPhysics, nextVelocity, CANVAS_HEIGHT. cbv zeta. cbn.
  set (v := Rmax _ _). intros Hy.
  destruct (_ >? _) eqn:E1; [|apply Rgtb_false in E1; lra]. cbn.
  destruct (_ <? _) eqn:E2; [apply Rltb_true in E2; lra|]. split; reflexivity.
Qed.

Section Quiet.

Variable rand : nat -> R.

(** A Playing frame that does not spawn. *)
Lemma updateGame_no_spawn (st : Engine) :
  gameState st = PLAYING ->
  spawnDue st = false ->
  obstacles (updateGame rand st) = survivors (gameSpeed st) (obstacles st) /\
  gameSpeed (updateGame rand st) = gameSpeed st /\
  score (updateGame rand st)
  = (score st + Z.of_nat (length (obstacles st))
     - Z.of_nat (length (obstacles (updateGame rand st))))%Z /\
  gameState (updateGame rand st)
  = if hit (playerY (playerPhysics st)) (gameSpeed st) (obstacles st)
    then GAME_OVER else PLAYING.
Proof.
  intros Hplaying Hdue.
  destruct (updateGame_playing_cells rand st Hplaying) as (Hg & Hs & _ & Ho & Hv & _).
  destruct (playingFrame_spec rand st) as (Hobs & Hsp & Hsc & _ & Hhit).
  destruct (spawned_idle rand st Hdue) as [Eo Es]. rewrite Eo, Es in *.
  rewrite Hg, Hs, Ho, Hv, Hobs, Hsp, Hsc.
  repeat split. destruct (hit _ _ _); destruct Hhit; congruence.
Qed.

End Quiet.

Lemma collision_ends_run_witness :
  let rand := fun _ : nat => 0.5 in
  gameState (updateGame rand collisionState) = GAME_OVER /\
  (exists l, played (updateGame rand collisionState) = played collisionState ++ l /\
             In snd_gameover l) /\
  highScore (updateGame rand collisionState) = Z.max 2 3.
Proof.
  intros rand.
  apply (collision_ends_run rand collisionState); [reflexivity|].
  destruct (updateGame_no_spawn rand collisionState eq_refl eq_refl) as (Ho & _).
  destruct (updateGame_avatar rand collisionState) as [Hy _].
  assert (Hv : nextVelocity collisionState = 0.5).
  { unfold nextVelocity, collisionState. cbn. rminmax; lra. }
  destruct (playerPhysics_free collisionState) as [Hy' _].
  { rewrite Hv. unfold collisionState, CANVAS_HEIGHT. cbn. lra. }
  rewrite Hv in Hy'. cbn [gameState collisionState] in Hy.
  rewrite Ho, Hy, Hy'.
  unfold survivors, exited, moved, collisionState. cbn.
  destruct (_ <? _) eqn:E; [apply Rltb_true in E; lra|]. cbn.
  apply Exists_cons_hd. unfold collides. cbn.
  repeat (apply andb_true_intro; split);
    first [apply Rgtb_true | apply Rltb_true]; lra.
Defined.

(** ** Obstacles at a constant scroll speed *)

Lemma Rltb_ext (a b c d : R) : a = c -> b = d -> (a <? b) = (c <? d).
Proof. intros -> ->. reflexivity. Qed.

Lemma set_x_ext (a b : R) (o : Obstacle.t) :
  a = b -> Obstacle.set_x a o = Obstacle.set_x b o.
Proof. intros ->. reflexivity. Qed.

Lemma moved_aged (s : R) (o : Obstacle.t) :
  (if negb (exited (moved s o)) then [moved s o] else []) = aged s 1 o.
Proof.
  unfold aged, exited, moved. cbn [Obstacle.x Obstacle.w Obstacle.set_x INR].
  rewrite (Rltb_ext (Obstacle.x o - s + Obstacle.w o) 0
             (Obstacle.x o + Obstacle.w o - 1 * s) 0) by lra.
  destruct (_ <? _); cbn [negb]; [reflexivity|].
  f_equal. apply set_x_ext. lra.
Qed.

Lemma survivors_aged (s : R) (obs : list Obstacle.t) :
  survivors s obs = agedAll s 1 obs.
Proof.
  unfold survivors, agedAll.
  induction obs as [|o obs IH]; [reflexivity|].
  cbn [map filter flat_map]. rewrite <- IH, <- moved_aged.
  destruct (negb _); reflexivity.
Qed.



Section ConstantSpeed.

Variable rand : nat -> R.

Lemma spawnDue_physics (st : Engine) : spawnDue (playerPhysics st) = spawnDue st.
Proof.
  unfold spawnDue. pose proof (playerPhysics_kept st) as Hk.
  replace (frameRef (playerPhysics st)) with (frameRef st) by congruence.
  replace (difficulty (playerPhysics st)) with (difficulty st) by congruence.
  reflexivity.
Qed.




End ConstantSpeed.

(** ** The life of one obstacle *)

Lemma floor_bounds (r : R) : IZR (floor r) <= r < IZR (floor r) + 1.
Proof. unfold floor. destruct (base_Int_part r). lra. Qed.

Lemma floor_IZR (z : Z) (r : R) : r = IZR z -> floor r = z.
Proof. intros ->. unfold floor. symmetry. apply Int_part_spec. lra. Qed.


Lemma ceil_IZR (z : Z) (r : R) : r = IZR z -> ceil r = z.
Proof.
  intros ->. unfold ceil. rewrite <- opp_IZR.
  change (Int_part (IZR (- z))) with (floor (IZR (- z))).
  rewrite (floor_IZR (- z)) by reflexivity. lia.
Qed.





Section Lifecycle.

Variable rand : nat -> R.

(** A Playing frame, spawning or not, on the array and the score. *)
Lemma updateGame_array (st : Engine) :
  gameState st = PLAYING ->
  obstacles (updateGame rand st)
  = agedAll (gameSpeed (spawned rand st)) 1 (obstacles (spawned rand st)) /\
  gameSpeed (updateGame rand st) = gameSpeed (spawned rand st) /\
  score (updateGame rand st)
  = (score st + Z.of_nat (length (obstacles (spawned rand st)))
     - Z.of_nat (length (obstacles (updateGame rand st))))%Z /\
  gameState (updateGame rand st)
  = if hit (playerY (playerPhysics st)) (gameSpeed (spawned rand st))
         (obstacles (spawned rand st))
    then GAME_OVER else PLAYING.
Proof.
  intros Hplaying.
  destruct (updateGame_playing_cells rand st Hplaying) as (Hg & Hs & _ & Ho & Hv & _).
  destruct (playingFrame_spec rand st) as (Hobs & Hsp & Hsc & _ & Hhit).
  rewrite Hg, Hs, Ho, Hv, Hobs, Hsp, Hsc, survivors_aged.
  repeat split. destruct (hit _ _ _); destruct Hhit; congruence.
Qed.





End Lifecycle.






(** ** Gates *)

Section Gate.

Variable rand : nat -> R.

Lemma gate_spawn (st : Engine) :
  spawnDue st = true ->
  (score st >= 10)%Z ->
  rand (randomCalls st) > 0.6 ->
  let gapY := rand (S (randomCalls st)) * (CANVAS_HEIGHT - gapSize (difficulty st) - 100) + 50 in
  obstacles (spawnObstacles rand st)
  = obstacles st
    ++ [Obstacle.mk CANVAS_WIDTH 0 60 gapY block "#7209B7";
        Obstacle.mk CANVAS_WIDTH (gapY + gapSize (difficulty st)) 60
          (CANVAS_HEIGHT - (gapY + gapSize (difficulty st))) block "#7209B7"].
Proof.
  intros Hdue Hscore Hrand. unfold spawnObstacles, random. rewrite Hdue.
  cbv beta iota zeta. cbn [randomCalls set_randomCalls score difficulty].
  apply Rgtb_true in Hrand. rewrite Hrand.
  assert (Hadv : (score st >=? 10)%Z = true) by (apply Z.geb_le; lia).
  rewrite Hadv. cbn [andb]. unfold pushObstacle, gapSize. cbn.
  rewrite <- app_assoc. reflexivity.
Qed.

Lemma gate_exit (st : Engine) (top bottom : Obstacle.t) (rest : list Obstacle.t) :
  gameState st = PLAYING ->
  obstacles (spawned rand st) = top :: bottom :: rest ->
  exited (moved (gameSpeed (spawned rand st)) top) = true ->
  exited (moved (gameSpeed (spawned rand st)) bottom) = true ->
  obstacles (updateGame rand st) = survivors (gameSpeed (spawned rand st)) rest /\
  score (updateGame rand st)
  = (score st + 2
     + (Z.of_nat (length rest)
        - Z.of_nat (length (survivors (gameSpeed (spawned rand st)) rest))))%Z.
Proof.
  intros Hplaying Hobs Htop Hbottom.
  destruct (updateGame_playing_cells rand st Hplaying) as (_ & Hs & _ & Ho & _).
  destruct (playingFrame_spec rand st) as (Hsurv & _ & Hsc & _).
  rewrite Hs, Ho, Hsc, Hsurv, Hobs.
  unfold survivors at 1 3. cbn [map filter]. rewrite Htop, Hbottom. cbn [negb].
  fold (survivors (gameSpeed (spawned rand st)) rest).
  split; [reflexivity|]. cbn [length]. lia.
Qed.

(** C9. A Gate spawn appends two rectangles, the top and the bottom pillar,
    both at the right edge and 60 wide; two rectangles with the same x and
    width keep the same x and width from frame to frame and leave the array on
    the same frame; and the frame on which the two leave adds 2 to the score
    on their account. *)
Theorem gate_scores_two (st : Engine) (top bottom : Obstacle.t) (rest : list Obstacle.t) :
  (spawnDue st = true -> (score st >= 10)%Z -> rand (randomCalls st) > 0.6 ->
   let gapY :=
     rand (S (randomCalls st)) * (CANVAS_HEIGHT - gapSize (difficulty st) - 100) + 50 in
   obstacles (spawnObstacles rand st)
   = obstacles st
     ++ [Obstacle.mk CANVAS_WIDTH 0 60 gapY block "#7209B7";
         Obstacle.mk CANVAS_WIDTH (gapY + gapSize (difficulty st)) 60
           (CANVAS_HEIGHT - (gapY + gapSize (difficulty st))) block "#7209B7"]) /\
  (Obstacle.x top = Obstacle.x bottom -> Obstacle.w top = Obstacle.w bottom ->
   forall s,
     Obstacle.x (moved s top) = Obstacle.x (moved s bottom) /\
     Obstacle.w (moved s top) = Obstacle.w (moved s bottom) /\
     exited (moved s top) = exited (moved s bottom)) /\
  (gameState st = PLAYING ->
   obstacles (spawned rand st) = top :: bottom :: rest ->
   exited (moved (gameSpeed (spawned rand st)) top) = true ->
   exited (moved (gameSpeed (spawned rand st)) bottom) = true ->
   obstacles (updateGame rand st) = survivors (gameSpeed (spawned rand st)) rest /\
   score (updateGame rand st)
   = (score st + 2
      + (Z.of_nat (length rest)
         - Z.of_nat (length (survivors (gameSpeed (spawned rand st)) rest))))%Z).
Proof.
  split; [apply gate_spawn|]. split; [|apply gate_exit].
  intros Hx Hw s. unfold exited, moved. cbn. rewrite Hx, Hw. repeat split.
Qed.

End Gate.

Lemma gate_scores_two_witness :
  let rand := fun _ : nat => 0.7 in
  let top := Obstacle.mk (-55) 0 60 200 block "#7209B7" in
  let bottom := Obstacle.mk (-55) 380 60 340 block "#7209B7" in
  (let gapY := 0.7 * (CANVAS_HEIGHT - 180 - 100) + 50 in
   obstacles (spawnObstacles rand gateSpawnState)
   = [Obstacle.mk CANVAS_WIDTH 0 60 gapY block "#7209B7";
      Obstacle.mk CANVAS_WIDTH (gapY + 180) 60 (CANVAS_HEIGHT - (gapY + 180))
        block "#7209B7"]) /\
  (forall s,
     Obstacle.x (moved s top) = Obstacle.x (moved s bottom) /\
     Obstacle.w (moved s top) = Obstacle.w (moved s bottom) /\
     exited (moved s top) = exited (moved s bottom)) /\
  obstacles (updateGame rand gateExitState) = [] /\
  score (updateGame rand gateExitState) = 12%Z.
Proof.
  intros rand top bottom.
  destruct (gate_scores_two rand gateSpawnState top bottom []) as (Hspawn & Hsame & _).
  destruct (gate_scores_two rand gateExitState top bottom []) as (_ & _ & Hexit).
  split; [|split].
  - apply Hspawn; [reflexivity | cbn; lia | unfold rand; lra].
  - apply Hsame; reflexivity.
  - destruct (spawned_idle rand gateExitState eq_refl) as [Eo Es].
    assert (Hout : forall o, In o [top; bottom] ->
                   exited (moved (gameSpeed (spawned rand gateExitState)) o) = true).
    { intros o Ho. rewrite Es. unfold exited, moved. apply Rltb_true.
      destruct Ho as [<-|[<-|[]]]; cbn; lra. }
    destruct Hexit as [Ho Hs].
    + reflexivity.
    + rewrite Eo. reflexivity.
    + apply Hout. left. reflexivity.
    + apply Hout. right. left. reflexivity.
    + split; [exact Ho | exact Hs].
Defined.

(** ** Entering Playing *)

Section Start.

Variable rand : nat -> R.

Lemma startGame_cells (st : Engine) :
  startGame st
  = mkEngine (mode st) PLAYING (difficulty st) 0 (highScore st) (isSimulation st)
      (simIntensity st) (CANVAS_HEIGHT / 2) 0 (intensityRef st) (wasJumpingRef st) []
      (match difficulty st with EASY => 3 | MEDIUM => 6 | HARD => 10 end)
      (frameRef st) [] (played st ++ [snd_start]) (randomCalls st).
Proof.
  unfold startGame. cbv zeta. cbn.
  destruct (difficulty st) eqn:E; rewrite <- E; reflexivity.
Qed.

Lemma updateGame_frameRef (st : Engine) :
  frameRef (updateGame rand st) = (frameRef st + 1)%Z.
Proof. apply updateGame_kept. Qed.

Lemma run_snoc (evs : list Event) (ev : Event) (st : Engine) :
  run rand (evs ++ [ev]) st = step rand ev (run rand evs st).
Proof. unfold run. rewrite fold_left_app. reflexivity. Qed.

Lemma run_frames_succ (j : nat) (st : Engine) :
  run rand (repeat EvFrame (S j)) st = updateGame rand (run rand (repeat EvFrame j) st).
Proof.
  change (repeat EvFrame (S j)) with (EvFrame :: repeat EvFrame j).
  rewrite repeat_cons, run_snoc. reflexivity.
Qed.

(** Frames in the tutorial only advance the frame counter (and the
    sparkles). *)
Lemma tutorial_frames (j : nat) (st : Engine) :
  gameState st = TUTORIAL ->
  let st' := run rand (repeat EvFrame j) st in
  gameState st' = TUTORIAL /\ difficulty st' = difficulty st /\
  frameRef st' = (frameRef st + Z.of_nat j)%Z.
Proof.
  intros Ht. induction j as [|j IH].
  - cbn. split; [exact Ht|]. split; [reflexivity|lia].
  - cbv zeta in *. rewrite run_frames_succ. destruct IH as (Hg & Hd & Hf).
    destruct (updateGame_kept rand (run rand (repeat EvFrame j) st)) as [Hk Hfr].
    rewrite updateGame_idle in * by congruence.
    cbn [gameState difficulty frameRef set_frameRef updateSparkles set_sparklesRef] in *.
    repeat split; [exact Hg | exact Hd | lia].
Qed.

(** After the start, as long as no frame has spawned, the game is Playing
    with an empty array and the frame counter counts on. *)
Lemma fresh_run (j : nat) (st : Engine) :
  gameState st = PLAYING -> obstacles st = [] ->
  (forall i, (i < j)%nat ->
     Z.rem (frameRef st + Z.of_nat i) (spawnRate (difficulty st)) <> 0%Z) ->
  let st' := run rand (repeat EvFrame j) st in
  gameState st' = PLAYING /\ obstacles st' = [] /\ difficulty st' = difficulty st /\
  frameRef st' = (frameRef st + Z.of_nat j)%Z.
Proof.
  intros Hp Ho. induction j as [|j IH]; intros Hquiet.
  - cbn. repeat split; try assumption. lia.
  - cbv zeta in *. rewrite run_frames_succ.
    destruct IH as (Hg & Hobs & Hd & Hf); [intros i Hi; apply Hquiet; lia|].
    set (sj := run rand (repeat EvFrame j) st) in *.
    assert (Hdue : spawnDue sj = false).
    { unfold spawnDue. rewrite Hf, Hd. apply Z.eqb_neq, Hquiet. lia. }
    destruct (updateGame_no_spawn rand sj Hg Hdue) as (Ho' & _ & _ & Hg').
    destruct (updateGame_kept rand sj) as [Hk Hfr].
    rewrite Hobs in Ho', Hg'. cbn in Ho', Hg'.
    repeat split; [exact Hg' | exact Ho' | congruence | lia].
Qed.

(** C10. [startGame] writes the score, the avatar's position and velocity, the
    obstacle array, the sparkle array and the scroll speed, requests the start
    cue and enters Playing; the high score and the frame counter are among the
    cells it leaves as they are.  The frame counter goes up by one on every
    frame in every game state.  And for each offset k below the spawn period
    there is a run, from the mounted component, in which the first spawn
    after the start comes on the frame at offset k. *)
Theorem start_keeps_frame_counter (st : Engine) (m : GameMode) (d : Difficulty) (k : nat) :
  startGame st
  = mkEngine (mode st) PLAYING (difficulty st) 0 (highScore st) (isSimulation st)
      (simIntensity st) (CANVAS_HEIGHT / 2) 0 (intensityRef st) (wasJumpingRef st) []
      (match difficulty st with EASY => 3 | MEDIUM => 6 | HARD => 10 end)
      (frameRef st) [] (played st ++ [snd_start]) (randomCalls st) /\
  frameRef (updateGame rand st) = (frameRef st + 1)%Z /\
  ((Z.of_nat k < spawnRate d)%Z ->
   exists idle : nat,
     let started :=
       run rand (EvSetDifficulty d :: repeat EvFrame idle ++ [EvStart]) (initialEngine m) in
     (forall j, (j < k)%nat ->
        gameState (run rand (repeat EvFrame j) started) = PLAYING /\
        spawnDue (run rand (repeat EvFrame j) started) = false) /\
     gameState (run rand (repeat EvFrame k) started) = PLAYING /\
     spawnDue (run rand (repeat EvFrame k) started) = true).
Proof.
  split; [apply startGame_cells|]. split; [apply updateGame_frameRef|].
  intros Hk.
  assert (Hrate : (0 < spawnRate d)%Z) by (destruct d; reflexivity).
  exists (Z.to_nat (spawnRate d - Z.of_nat k)). cbv zeta.
  change (run rand (EvSetDifficulty d :: ?l) (initialEngine m))
    with (run rand l (set_difficulty d (initialEngine m))).
  rewrite run_snoc.
  destruct (tutorial_frames (Z.to_nat (spawnRate d - Z.of_nat k))
              (set_difficulty d (initialEngine m)) eq_refl) as (Hg & Hd & Hf).
  set (idled := run rand (repeat EvFrame _) _) in *.
  cbn [step]. rewrite Hg. rewrite startGame_cells.
  set (started := mkEngine _ _ _ _ _ _ _ _ _ _ _ _ _ _ _ _ _).
  assert (Hf' : frameRef started = (spawnRate d - Z.of_nat k)%Z).
  { unfold started. cbn [frameRef]. rewrite Hf. cbn. lia. }
  assert (Hd' : difficulty started = d) by (unfold started; cbn [difficulty]; exact Hd).
  assert (Hfresh : forall j, (j <= k)%nat ->
            let sj := run rand (repeat EvFrame j) started in
            gameState sj = PLAYING /\ obstacles sj = [] /\ difficulty sj = d /\
            frameRef sj = (spawnRate d - Z.of_nat k + Z.of_nat j)%Z).
  { intros j Hj.
    pose proof (fresh_run j started eq_refl eq_refl) as H.
    rewrite Hf', Hd' in H. apply H.
    intros i Hi. rewrite Z.rem_small by lia. lia. }
  split; [|split].
  - intros j Hj. destruct (Hfresh j) as (Hgj & _ & Hdj & Hfj); [lia|].
    split; [exact Hgj|]. unfold spawnDue. rewrite Hfj, Hdj.
    apply Z.eqb_neq. rewrite Z.rem_small by lia. lia.
  - apply (Hfresh k). lia.
  - destruct (Hfresh k) as (_ & _ & Hdk & Hfk); [lia|].
    unfold spawnDue. rewrite Hfk, Hdk.
    replace (spawnRate d - Z.of_nat k + Z.of_nat k)%Z with (spawnRate d) by lia.
    rewrite Z.rem_same by lia. reflexivity.
Qed.

End Start.

Lemma start_keeps_frame_counter_witness :
  let rand := fun _ : nat => 0.5 in
  exists idle : nat,
    let started :=
      run rand (EvSetDifficulty HARD :: repeat EvFrame idle ++ [EvStart])
        (initialEngine LUNGE) in
    (forall j, (j < 39)%nat ->
       gameState (run rand (repeat EvFrame j) started) = PLAYING /\
       spawnDue (run rand (repeat EvFrame j) started) = false) /\
    gameState (run rand (repeat EvFrame 39) started) = PLAYING /\
    spawnDue (run rand (repeat EvFrame 39) started) = true.
Proof.
  intros rand.
  destruct (start_keeps_frame_counter rand (initialEngine LUNGE) LUNGE HARD 39)
    as (_ & _ & H).
  apply H. reflexivity.
Defined.

(** * Further properties *)

(** ** calculateAngle *)

Lemma atan2_range (y x : R) : - PI < atan2 y x <= PI.
Proof.
  pose proof PI_RGT_0 as Hpi. pose proof (atan_bound (y / x)) as Hb.
  unfold atan2.
  destruct (0 <? x) eqn:E1; [lra|]. apply Rltb_false in E1.
  destruct (x <? 0) eqn:E2; [apply Rltb_true in E2 | apply Rltb_false in E2].
  - assert (Hinv : / x < 0) by (apply Rinv_lt_0_compat; exact E2).
    destruct (0 <=? y) eqn:E3; [apply Rleb_true in E3 | apply Rleb_false in E3].
    + assert (Hq : y / x <= 0) by (unfold Rdiv; nra).
      assert (atan (y / x) <= 0).
      { destruct Hq as [Hq|Hq]; [|rewrite Hq, atan_0; lra].
        pose proof (atan_increasing _ _ Hq) as H. rewrite atan_0 in H. lra. }
      lra.
    + assert (Hq : 0 < y / x) by (unfold Rdiv; nra).
      pose proof (atan_increasing _ _ Hq) as H. rewrite atan_0 in H. lra.
  - destruct (0 <? y); [lra|]. destruct (y <? 0); lra.
Qed.

Lemma degrees_bound (r : R) : - (2 * PI) < r < 2 * PI -> Rabs (r * 180 / PI) < 360.
Proof.
  intros Hr. pose proof PI_RGT_0 as Hpi.
  assert (Hu : 0 < / PI) by (apply Rinv_0_lt_compat; lra).
  assert (H1 : PI * / PI = 1) by (apply Rinv_r; lra).
  unfold Rdiv. apply Rabs_def1; nra.
Qed.

Lemma calculateAngle_bounds (a b c : Point.t) : 0 <= calculateAngle a b c <= 180.
Proof.
  unfold calculateAngle. cbv zeta.
  set (r := atan2 _ _ - atan2 _ _).
  assert (Hr : - (2 * PI) < r < 2 * PI).
  { unfold r.
    pose proof (atan2_range (Point.y c - Point.y b) (Point.x c - Point.x b)).
    pose proof (atan2_range (Point.y a - Point.y b) (Point.x a - Point.x b)). lra. }
  pose proof (degrees_bound r Hr) as Hd. pose proof (Rabs_pos (r * 180 / PI)) as Hp.
  destruct (_ >? _) eqn:E; [apply Rgtb_true in E | apply Rgtb_false in E]; lra.
Qed.

Lemma calculateAngle_swap (a b c : Point.t) :
  calculateAngle a b c = calculateAngle c b a.
Proof.
  unfold calculateAngle. cbv zeta.
  set (t1 := atan2 (Point.y c - Point.y b) (Point.x c - Point.x b)).
  set (t2 := atan2 (Point.y a - Point.y b) (Point.x a - Point.x b)).
  replace ((t2 - t1) * 180 / PI) with (- ((t1 - t2) * 180 / PI))
    by (unfold Rdiv; ring).
  rewrite Rabs_Ropp. reflexivity.
Qed.

(** X1. The angle of [calculateAngle] is always between 0 and 180 degrees,
    and it does not depend on which end of the joint chain is named first:
    [calculateAngle a b c = calculateAngle c b a]. *)
Theorem calculateAngle_range (a b c : Point.t) :
  0 <= calculateAngle a b c <= 180 /\ calculateAngle a b c = calculateAngle c b a.
Proof. split; [apply calculateAngle_bounds|apply calculateAngle_swap]. Qed.

(** ** normalize *)

(** X3. Whatever the value and the reference range, provided its two ends
    differ, and with or without [inverse], [normalize] returns a number of
    [0, 1]. *)
Theorem normalize_in_unit_interval (value min max : R) (inverse : bool) :
  min <> max -> 0 <= normalize value min max inverse <= 1.
Proof. intros _. apply normalize_range. Qed.

Lemma normalize_in_unit_interval_witness :
  0 <= normalize 400 160 70 true <= 1.
Proof. apply normalize_in_unit_interval. lra. Defined.

Lemma clamp01_monotone (t t' : R) : t <= t' -> clamp01 t <= clamp01 t'.
Proof. intros H. unfold clamp01. rminmax; lra. Qed.

(** X4. For [min < max], [normalize] without [inverse] never decreases when
    the value grows, with [inverse] it never increases, and between [min] and
    [max] it is the linear map [(value - min) / (max - min)]. *)
Theorem normalize_monotone (v v' min max : R) :
  min < max -> v <= v' ->
  normalize v min max false <= normalize v' min max false /\
  normalize v' min max true <= normalize v min max true /\
  (min <= v <= max -> normalize v min max false = (v - min) / (max - min)).
Proof.
  intros Hlt Hle.
  assert (Hinv : 0 < / (max - min)) by (apply Rinv_0_lt_compat; lra).
  assert (Hq : (v - min) / (max - min) <= (v' - min) / (max - min))
    by (unfold Rdiv; nra).
  pose proof (clamp01_monotone _ _ Hq) as Hc.
  rewrite !normalize_clamp. split; [exact Hc|]. split; [lra|].
  intros [Hlo Hhi].
  assert (0 <= (v - min) / (max - min)) by (unfold Rdiv; nra).
  assert ((v - min) / (max - min) <= 1).
  { apply Rmult_le_reg_r with (max - min); [lra|].
    unfold Rdiv. rewrite Rmult_assoc, Rinv_l by lra. lra. }
  unfold clamp01. rminmax; lra.
Qed.

Lemma normalize_monotone_witness :
  normalize 90 70 160 false <= normalize 120 70 160 false /\
  normalize 120 70 160 true <= normalize 90 70 160 true /\
  (70 <= 90 <= 160 -> normalize 90 70 160 false = (90 - 70) / (160 - 70)).
Proof. apply normalize_monotone; lra. Defined.

(** X5. With the reference range passed backwards, larger end first, and
    [inverse] set, as the Squat and Lunge modes pass it, [normalize] does not
    fall as the value grows: it is 0 for every value at or below the smaller
    end, 1 for every value at or above the larger end, and never decreases in
    between. *)
Theorem normalize_backwards_range (u w v v' lo hi : R) :
  lo < hi -> u <= lo -> hi <= w -> v <= v' ->
  normalize u hi lo true = 0 /\
  normalize w hi lo true = 1 /\
  normalize v hi lo true <= normalize v' hi lo true.
Proof.
  intros Hlt Hu Hw Hv. unfold normalize. cbv zeta.
  assert (Hq : forall x, (x - hi) / (lo - hi) * (hi - lo) = hi - x)
    by (intros x; field; lra).
  pose proof (Hq u) as Eu. pose proof (Hq w) as Ew.
  pose proof (Hq v) as Ev. pose proof (Hq v') as Ev'.
  set (tu := (u - hi) / (lo - hi)) in *. set (tw := (w - hi) / (lo - hi)) in *.
  set (t := (v - hi) / (lo - hi)) in *. set (t' := (v' - hi) / (lo - hi)) in *.
  assert (1 <= tu) by nra. assert (tw <= 0) by nra. assert (t' <= t) by nra.
  split; [|split]; rminmax; lra.
Qed.

Lemma normalize_backwards_range_witness :
  normalize 60 160 70 true = 0 /\
  normalize 170 160 70 true = 1 /\
  normalize 80 160 70 true <= normalize 90 160 70 true.
Proof. apply (normalize_backwards_range 60 170 80 90 70 160); lra. Defined.

(** ** The signal interpreter, further *)

(** X6. With the camera (not in simulation mode), the raw intensity of every
    pose result, in every mode, with or without landmarks, is a number of
    [0, 1]. *)
Theorem raw_intensity_in_unit_interval (results : option (nat -> Point.t)) (st : Engine) :
  isSimulation st = false -> 0 <= currentIntensity results st <= 1.
Proof. apply currentIntensity_range. Qed.

Lemma raw_intensity_in_unit_interval_witness :
  0 <= currentIntensity (Some (bentLeg None)) (initialEngine LUNGE) <= 1.
Proof. apply raw_intensity_in_unit_interval. reflexivity. Defined.

(** X7. In ArmRaise mode the raw intensity takes one of the three values 0,
    0.5 and 1: it is 1 exactly when both wrists are above the nose (have a
    smaller y), 0 exactly when neither is, and 0.5 otherwise.  A wrist level
    with the nose does not count as above. *)
Theorem arm_raise_levels (landmarks : nat -> Point.t) (st : Engine) :
  isSimulation st = false ->
  mode st = ARM_RAISE ->
  let nose := Point.y (landmarks 0%nat) in
  let left := Point.y (landmarks 15%nat) in
  let right := Point.y (landmarks 16%nat) in
  let raw := currentIntensity (Some landmarks) st in
  (raw = 1 <-> left < nose /\ right < nose) /\
  (raw = 0 <-> nose <= left /\ nose <= right) /\
  (raw = 0.5 <-> (left < nose /\ nose <= right) \/ (nose <= left /\ right < nose)).
Proof.
  intros Hsim Hmode. cbv zeta. unfold currentIntensity. rewrite Hsim, Hmode.
  destruct (Point.y (landmarks 15%nat) <? Point.y (landmarks 0%nat)) eqn:El;
    [apply Rltb_true in El | apply Rltb_false in El];
    (destruct (Point.y (landmarks 16%nat) <? Point.y (landmarks 0%nat)) eqn:Er;
     [apply Rltb_true in Er | apply Rltb_false in Er]);
    cbn [andb orb]; repeat split; intros; try lra; tauto.
Qed.

Lemma arm_raise_levels_witness :
  let pose := fun i : nat =>
    match i with
    | 0%nat => Point.mk 0.5 0.3 None
    | 15%nat => Point.mk 0.3 0.1 None
    | _ => Point.mk 0.7 0.6 None
    end in
  currentIntensity (Some pose) (initialEngine ARM_RAISE) = 0.5.
Proof.
  intros pose.
  destruct (arm_raise_levels pose (initialEngine ARM_RAISE) eq_refl eq_refl)
    as (_ & _ & H).
  apply H. left. unfold pose. cbn. lra.
Defined.

(** X8. In Lunge mode either leg counts: the raw intensity is at least what
    each leg alone would give, it is what one of the two gives, and it does
    not change when the left and the right leg are exchanged. *)
Theorem lunge_either_leg (landmarks : nat -> Point.t) (st : Engine) :
  isSimulation st = false ->
  mode st = LUNGE ->
  let leftLeg :=
    normalize (calculateAngle (landmarks 23%nat) (landmarks 25%nat) (landmarks 27%nat))
      160 90 true in
  let rightLeg :=
    normalize (calculateAngle (landmarks 24%nat) (landmarks 26%nat) (landmarks 28%nat))
      160 90 true in
  let raw := currentIntensity (Some landmarks) st in
  leftLeg <= raw /\ rightLeg <= raw /\ (raw = leftLeg \/ raw = rightLeg) /\
  currentIntensity (Some (swapLegs landmarks)) st = raw.
Proof.
  intros Hsim Hmode. cbv zeta. unfold currentIntensity. rewrite Hsim, Hmode.
  cbn [swapLegs].
  set (l := normalize _ 160 90 true). set (r := normalize _ 160 90 true).
  split; [apply Rmax_l|]. split; [apply Rmax_r|]. split.
  - unfold Rmax. destruct (Rle_dec l r); auto.
  - apply Rmax_comm.
Qed.

Lemma lunge_either_leg_witness :
  let landmarks := straightLegs None in
  let st := initialEngine LUNGE in
  let leftLeg :=
    normalize (calculateAngle (landmarks 23%nat) (landmarks 25%nat) (landmarks 27%nat))
      160 90 true in
  let rightLeg :=
    normalize (calculateAngle (landmarks 24%nat) (landmarks 26%nat) (landmarks 28%nat))
      160 90 true in
  let raw := currentIntensity (Some landmarks) st in
  leftLeg <= raw /\ rightLeg <= raw /\ (raw = leftLeg \/ raw = rightLeg) /\
  currentIntensity (Some (swapLegs landmarks)) st = raw.
Proof.
  intros landmarks st.
  apply (lunge_either_leg landmarks st); reflexivity.
Defined.

(** ** The smoothed intensity over runs *)

Section Smoothing.

Variable rand : nat -> R.

Lemma step_camera (ev : Event) (st : Engine) :
  isSimulation st = false ->
  isSimulation (step rand ev st) = false /\
  (0 <= intensityRef st <= 1 -> 0 <= intensityRef (step rand ev st) <= 1).
Proof.
  intros Hsim. destruct ev as [results| | |d|val]; cbn [step].
  - split.
    + rewrite <- Hsim. unfold onPoseResults. branches; reflexivity.
    + intros HI. rewrite onPoseResults_intensityRef.
      pose proof (currentIntensity_range results st Hsim). lra.
  - destruct (updateGame_kept rand st) as [Hk _].
    replace (isSimulation (updateGame rand st)) with (isSimulation st) by congruence.
    replace (intensityRef (updateGame rand st)) with (intensityRef st) by congruence.
    split; [exact Hsim | tauto].
  - destruct (gameState st); try (split; [exact Hsim | tauto]);
      rewrite startGame_cells; cbn; split; (exact Hsim || tauto).
  - destruct (gameState st); split; (exact Hsim || tauto).
  - rewrite Hsim. split; [exact Hsim | tauto].
Qed.

(** X9. With the camera, the smoothed intensity never leaves [0, 1]: if it
    lies there before a run of events of any kind, it lies there after. *)
Theorem smoothed_intensity_in_unit_interval (evs : list Event) (st : Engine) :
  isSimulation st = false ->
  0 <= intensityRef st <= 1 ->
  0 <= intensityRef (run rand evs st) <= 1.
Proof.
  revert st. induction evs as [|ev evs IH]; intros st Hsim HI; [exact HI|].
  destruct (step_camera ev st Hsim) as [Hsim' HI'].
  apply IH; [exact Hsim' | exact (HI' HI)].
Qed.

Lemma lost_pose_intensity (n : nat) (st : Engine) :
  isSimulation st = false ->
  isSimulation (run rand (repeat (EvPose None) n) st) = false /\
  intensityRef (run rand (repeat (EvPose None) n) st) = intensityRef st * 0.8 ^ n.
Proof.
  revert st. induction n as [|n IH]; intros st Hsim.
  - cbn. split; [exact Hsim | lra].
  - change (run rand (repeat (EvPose None) (S n)) st)
      with (run rand (repeat (EvPose None) n) (onPoseResults None st)).
    destruct (step_camera (EvPose None) st Hsim) as [Hsim' _]. cbn [step] in Hsim'.
    destruct (IH _ Hsim') as [H1 H2]. split; [exact H1|].
    rewrite H2, onPoseResults_intensityRef. unfold currentIntensity. rewrite Hsim.
    cbn [pow]. lra.
Qed.

Lemma pow_08_bound (n : nat) : (4 <= n)%nat -> 0 < 0.8 ^ n <= 0.4096.
Proof.
  intros Hn. split; [apply pow_lt; lra|].
  replace n with (4 + (n - 4))%nat by lia. rewrite pow_add.
  assert (H4 : 0.8 ^ 4 = 0.4096) by (cbn [pow]; lra).
  assert (0.8 ^ (n - 4) <= 1).
  { clear. induction (n - 4)%nat as [|m IH]; cbn [pow]; [lra|].
    assert (0 < 0.8 ^ m) by (apply pow_lt; lra). nra. }
  rewrite H4. nra.
Qed.

Lemma lost_pose_latch (n : nat) (st : Engine) :
  isSimulation st = false -> intensityRef st <= 1 -> (5 <= n)%nat ->
  wasJumpingRef (run rand (repeat (EvPose None) n) st) = false.
Proof.
  intros Hsim HI Hn. destruct n as [|n]; [lia|].
  change (S n) with (1 + n)%nat. rewrite Nat.add_comm.
  rewrite repeat_app. unfold run. rewrite fold_left_app. fold (run rand).
  fold (run rand (repeat (EvPose None) n) st).
  destruct (lost_pose_intensity n st Hsim) as [Hsim' Hval].
  set (sn := run rand (repeat (EvPose None) n) st) in *.
  cbn [repeat fold_left step].
  rewrite onPoseResults_latch, onPoseResults_intensityRef.
  unfold currentIntensity. rewrite Hsim', Hval.
  pose proof (pow_08_bound n ltac:(lia)) as Hpow.
  assert (Hlow : intensityRef st * 0.8 ^ n * 0.8 + 0 * 0.2 < 0.4) by nra.
  destruct (_ >? _) eqn:E1; [apply Rgtb_true in E1; lra|]. cbn [andb].
  destruct (_ <? _) eqn:E2; [reflexivity | apply Rltb_false in E2; lra].
Qed.

(** X10. When the pose source stops delivering landmarks, the smoothed
    intensity, if it lies in [0, 1], falls or stays with every such result and
    never goes below 0; from the fifth such result in a row on it is below
    0.4, and the exertion latch is cleared. *)
Theorem lost_pose_decay (m n : nat) (st : Engine) :
  isSimulation st = false ->
  0 <= intensityRef st <= 1 ->
  (5 <= n)%nat ->
  let lost := fun k => run rand (repeat (EvPose None) k) st in
  0 <= intensityRef (lost (S m)) <= intensityRef (lost m) /\
  intensityRef (lost n) < 0.4 /\
  wasJumpingRef (lost n) = false.
Proof.
  intros Hsim HI Hn lost. unfold lost.
  destruct (lost_pose_intensity (S m) st Hsim) as [_ HSm].
  destruct (lost_pose_intensity m st Hsim) as [_ Hm].
  destruct (lost_pose_intensity n st Hsim) as [_ Hval].
  rewrite HSm, Hm, Hval. cbn [pow].
  assert (0 < 0.8 ^ m) by (apply pow_lt; lra).
  assert (Hpow : 0 < 0.8 ^ n <= 0.32768).
  { destruct n as [|n']; [lia|]. pose proof (pow_08_bound n' ltac:(lia)). cbn [pow]. lra. }
  set (p := 0.8 ^ m) in *. set (q := 0.8 ^ n) in *.
  assert (0 <= intensityRef st * p) by nra.
  assert (intensityRef st * q <= q) by nra.
  replace (intensityRef st * (0.8 * p)) with (0.8 * (intensityRef st * p)) by ring.
  split; [lra|]. split; [lra|].
  apply lost_pose_latch; [exact Hsim|lra|exact Hn].
Qed.

End Smoothing.

Lemma smoothed_intensity_in_unit_interval_witness :
  0 <= intensityRef
         (run (fun _ => 0.5) [EvPose (Some (straightLegs None)); EvFrame; EvStart; EvPose None]
            (initialEngine SQUAT)) <= 1.
Proof.
  apply smoothed_intensity_in_unit_interval; [reflexivity|]. cbn. lra.
Defined.

Lemma lost_pose_decay_witness :
  let st := set_wasJumpingRef true (set_intensityRef 0.9 (initialEngine SQUAT)) in
  let lost := fun k => run (fun _ => 0.5) (repeat (EvPose None) k) st in
  0 <= intensityRef (lost 3%nat) <= intensityRef (lost 2%nat) /\
  intensityRef (lost 5%nat) < 0.4 /\
  wasJumpingRef (lost 5%nat) = false.
Proof.
  intros st.
  apply (lost_pose_decay (fun _ => 0.5) 2 5 st).
  - reflexivity.
  - cbn. lra.
  - lia.
Defined.

(** ** The game state machine *)

Section Machine.

Variable rand : nat -> R.

Lemma survivors_length (s : R) (obs : list Obstacle.t) :
  (length (survivors s obs) <= length obs)%nat.
Proof.
  unfold survivors. etransitivity; [apply filter_length_le|]. rewrite length_map. lia.
Qed.

(** A Playing frame on the game state and the two scores. *)
Lemma updateGame_playing_scores (st : Engine) :
  gameState st = PLAYING ->
  (gameState (updateGame rand st) = PLAYING \/ gameState (updateGame rand st) = GAME_OVER) /\
  (score st <= score (updateGame rand st))%Z /\
  (highScore st <= highScore (updateGame rand st))%Z /\
  (highScore (updateGame rand st) <> highScore st ->
   gameState (updateGame rand st) = GAME_OVER).
Proof.
  intros Hplaying.
  destruct (updateGame_playing_cells rand st Hplaying) as (Hg & Hs & Hh & _).
  destruct (playingFrame_spec rand st) as (_ & _ & Hsc & _ & Hhit).
  pose proof (survivors_length (gameSpeed (spawned rand st)) (obstacles (spawned rand st))).
  rewrite Hg, Hs, Hh, Hsc.
  destruct (hit _ _ _); destruct Hhit as [Hg' Hh']; rewrite Hg', Hh'.
  - repeat split; auto; lia.
  - repeat split; auto; lia.
Qed.

Lemma updateGame_idle_cells (st : Engine) :
  gameState st <> PLAYING ->
  gameState (updateGame rand st) = gameState st /\
  score (updateGame rand st) = score st /\
  highScore (updateGame rand st) = highScore st /\
  obstacles (updateGame rand st) = obstacles st /\
  gameSpeed (updateGame rand st) = gameSpeed st /\
  playerY (updateGame rand st) = playerY st /\
  playerVelocity (updateGame rand st) = playerVelocity st /\
  played (updateGame rand st) = played st.
Proof. intros H. rewrite updateGame_idle by assumption. repeat split. Qed.

Lemma onPoseResults_cells (results : option (nat -> Point.t)) (st : Engine) :
  gameState (onPoseResults results st) = gameState st /\
  difficulty (onPoseResults results st) = difficulty st /\
  score (onPoseResults results st) = score st /\
  highScore (onPoseResults results st) = highScore st /\
  obstacles (onPoseResults results st) = obstacles st /\
  gameSpeed (onPoseResults results st) = gameSpeed st /\
  playerY (onPoseResults results st) = playerY st /\
  playerVelocity (onPoseResults results st) = playerVelocity st /\
  frameRef (onPoseResults results st) = frameRef st.
Proof. unfold onPoseResults. branches; repeat split. Qed.

(** X11. The game state moves only along Tutorial -> Playing and
    GameOver -> Playing, both by a press of START or Try Again, and
    Playing -> GameOver, by an animation frame; every other event in every
    other state leaves it where it is.  The menu state is never entered. *)
Theorem gameState_transitions (ev : Event) (st : Engine) :
  gameState (step rand ev st) = gameState st \/
  (ev = EvStart /\ gameState st = TUTORIAL /\ gameState (step rand ev st) = PLAYING) \/
  (ev = EvStart /\ gameState st = GAME_OVER /\ gameState (step rand ev st) = PLAYING) \/
  (ev = EvFrame /\ gameState st = PLAYING /\ gameState (step rand ev st) = GAME_OVER).
Proof.
  destruct ev as [results| | |d|val]; cbn [step].
  - left. apply onPoseResults_cells.
  - destruct (gameState st) eqn:E;
      try (left; rewrite updateGame_idle by congruence; exact E).
    destruct (updateGame_playing_scores st E) as ([Hg|Hg] & _); [left; exact Hg|].
    right. right. right. auto.
  - destruct (gameState st) eqn:E; try (left; exact E).
    + right. left. rewrite startGame_cells. auto.
    + right. right. left. rewrite startGame_cells. auto.
  - left. destruct (gameState st) eqn:E; exact E.
  - left. destruct (isSimulation st); reflexivity.
Qed.

Lemma step_outside_playing (ev : Event) (st : Engine) :
  gameState st <> PLAYING -> ev <> EvStart ->
  gameState (step rand ev st) = gameState st /\
  score (step rand ev st) = score st /\
  highScore (step rand ev st) = highScore st /\
  obstacles (step rand ev st) = obstacles st /\
  gameSpeed (step rand ev st) = gameSpeed st /\
  playerY (step rand ev st) = playerY st /\
  playerVelocity (step rand ev st) = playerVelocity st.
Proof.
  intros Hg Hev. destruct ev as [results| | |d|val]; cbn [step].
  - destruct (onPoseResults_cells results st) as (H1 & _ & H2 & H3 & H4 & H5 & H6 & H7 & _).
    repeat split; assumption.
  - destruct (updateGame_idle_cells st Hg) as (H1 & H2 & H3 & H4 & H5 & H6 & H7 & _).
    repeat split; assumption.
  - contradiction.
  - destruct (gameState st) eqn:E; repeat split; exact E.
  - destruct (isSimulation st); repeat split.
Qed.

(** X12. Outside Playing the game is frozen: from the tutorial or the
    game-over screen, a run of events without a press of START or Try Again
    leaves the game state, the score, the high score, the obstacles, the
    scroll speed and the avatar exactly as they were. *)
Theorem outside_playing_frozen (evs : list Event) (st : Engine) :
  gameState st <> PLAYING ->
  noStart evs ->
  gameState (run rand evs st) = gameState st /\
  score (run rand evs st) = score st /\
  highScore (run rand evs st) = highScore st /\
  obstacles (run rand evs st) = obstacles st /\
  gameSpeed (run rand evs st) = gameSpeed st /\
  playerY (run rand evs st) = playerY st /\
  playerVelocity (run rand evs st) = playerVelocity st.
Proof.
  revert st. induction evs as [|ev evs IH]; intros st Hg Hns; [repeat split|].
  apply Forall_cons_iff in Hns. destruct Hns as [Hev Hns].
  destruct (step_outside_playing ev st Hg Hev) as (H1 & H2 & H3 & H4 & H5 & H6 & H7).
  change (run rand (ev :: evs) st) with (run rand evs (step rand ev st)).
  destruct (IH (step rand ev st)) as (I1 & I2 & I3 & I4 & I5 & I6 & I7);
    [congruence | exact Hns |].
  repeat split; congruence.
Qed.

Lemma step_highScore (ev : Event) (st : Engine) :
  (highScore st <= highScore (step rand ev st))%Z /\
  (highScore (step rand ev st) <> highScore st ->
   ev = EvFrame /\ gameState st = PLAYING /\ gameState (step rand ev st) = GAME_OVER).
Proof.
  assert (Hsame : forall st', highScore st' = highScore st ->
            (highScore st <= highScore st')%Z /\
            (highScore st' <> highScore st ->
             ev = EvFrame /\ gameState st = PLAYING /\ gameState st' = GAME_OVER)).
  { intros st' ->. split; [lia|]. intros H. exfalso. apply H. reflexivity. }
  destruct ev as [results| | |d|val]; cbn [step].
  - apply Hsame, onPoseResults_cells.
  - destruct (gameState st) eqn:E;
      try (apply Hsame; rewrite updateGame_idle by congruence; reflexivity).
    destruct (updateGame_playing_scores st E) as (_ & _ & Hle & Hne).
    split; [exact Hle|]. intros H. auto.
  - destruct (gameState st); try (apply Hsame; reflexivity);
      apply Hsame; rewrite startGame_cells; reflexivity.
  - destruct (gameState st); apply Hsame; reflexivity.
  - destruct (isSimulation st); apply Hsame; reflexivity.
Qed.

(** X13. The high score never decreases, whatever happens; and the only
    event that changes it is an animation frame that takes the game from
    Playing to GameOver. *)
Theorem highScore_monotone (evs : list Event) (st : Engine) (ev : Event) :
  (highScore st <= highScore (run rand evs st))%Z /\
  (highScore (step rand ev st) = highScore st \/
   (ev = EvFrame /\ gameState st = PLAYING /\ gameState (step rand ev st) = GAME_OVER)).
Proof.
  split.
  2:{ destruct (Z.eq_dec (highScore (step rand ev st)) (highScore st)) as [He|Hne];
        [left; exact He | right; apply step_highScore, Hne]. }
  revert st. induction evs as [|e evs IH]; intros st; [cbn; lia|].
  change (run rand (e :: evs) st) with (run rand evs (step rand e st)).
  pose proof (IH (step rand e st)). destruct (step_highScore e st) as [Hle _]. lia.
Qed.

Lemma step_nonnegative (ev : Event) (st : Engine) :
  (0 <= score st)%Z -> (0 <= highScore st)%Z ->
  (0 <= score (step rand ev st))%Z /\ (0 <= highScore (step rand ev st))%Z.
Proof.
  intros Hs Hh. destruct (step_highScore ev st) as [Hle _]. split; [|lia].
  destruct ev as [results| | |d|val]; cbn [step].
  - destruct (onPoseResults_cells results st) as (_ & _ & -> & _). exact Hs.
  - destruct (gameState st) eqn:E;
      try (rewrite updateGame_idle by congruence; exact Hs).
    destruct (updateGame_playing_scores st E) as (_ & Hsc & _). lia.
  - destruct (gameState st); try exact Hs; rewrite startGame_cells; cbn; lia.
  - destruct (gameState st); exact Hs.
  - destruct (isSimulation st); exact Hs.
Qed.

(** X14. In every state the mounted component can reach, the score and the
    high score are non-negative; and the only event that can lower the score
    is a press of START or Try Again, which sets it to 0. *)
Theorem scores_nonnegative (evs : list Event) (m : GameMode) (st : Engine) (ev : Event) :
  (0 <= score (run rand evs (initialEngine m)))%Z /\
  (0 <= highScore (run rand evs (initialEngine m)))%Z /\
  ((score st <= score (step rand ev st))%Z \/
   (ev = EvStart /\ score (step rand ev st) = 0%Z)).
Proof.
  split; [|split].
  - assert (H : forall st0, (0 <= score st0)%Z -> (0 <= highScore st0)%Z ->
                (0 <= score (run rand evs st0))%Z).
    { induction evs as [|e evs IH]; intros st0 Hs Hh; [exact Hs|].
      destruct (step_nonnegative e st0 Hs Hh). apply IH; assumption. }
    apply H; cbn; lia.
  - assert (H : forall st0, (highScore st0 <= highScore (run rand evs st0))%Z).
    { induction evs as [|e evs IH]; intros st0; [cbn; lia|].
      change (run rand (e :: evs) st0) with (run rand evs (step rand e st0)).
      pose proof (IH (step rand e st0)). destruct (step_highScore e st0) as [Hle _]. lia. }
    pose proof (H (initialEngine m)) as H0. cbn in H0. exact H0.
  - destruct ev as [results| | |d|val]; cbn [step].
    + left. destruct (onPoseResults_cells results st) as (_ & _ & Hs & _). lia.
    + left. destruct (gameState st) eqn:E;
        try (rewrite updateGame_idle by congruence; cbn; lia).
      destruct (updateGame_playing_scores st E) as (_ & Hsc & _). lia.
    + destruct (gameState st); try (left; lia);
        right; rewrite startGame_cells; split; reflexivity.
    + left. destruct (gameState st); cbn; lia.
    + left. destruct (isSimulation st); cbn; lia.
Qed.

(** X15. The frame counter counts the animation frames and nothing else:
    after a run it has grown by the number of frames in the run, in whatever
    game states they were executed, and no other event touches it. *)
Theorem frameRef_counts_frames (evs : list Event) (st : Engine) :
  frameRef (run rand evs st) = (frameRef st + Z.of_nat (frameCount evs))%Z.
Proof.
  revert st. induction evs as [|ev evs IH]; intros st; [cbn; lia|].
  change (run rand (ev :: evs) st) with (run rand evs (step rand ev st)).
  rewrite IH. destruct ev as [results| | |d|val]; cbn [step].
  - destruct (onPoseResults_cells results st) as (_ & _ & _ & _ & _ & _ & _ & _ & ->).
    reflexivity.
  - rewrite updateGame_frameRef.
    change (frameCount (EvFrame :: evs)) with (S (frameCount evs)). lia.
  - destruct (gameState st); try reflexivity; rewrite startGame_cells; reflexivity.
  - destruct (gameState st); reflexivity.
  - destruct (isSimulation st); reflexivity.
Qed.

(** X16. Entering Playing twice in a row gives the state that entering it
    once gives, but for the audio log, which holds the start cue twice. *)
Theorem startGame_idempotent (st : Engine) :
  startGame (startGame st)
  = set_played (played st ++ [snd_start; snd_start]) (startGame st).
Proof.
  rewrite !startGame_cells. cbn. rewrite <- app_assoc.
  destruct (difficulty st); reflexivity.
Qed.

Lemma step_difficulty (ev : Event) (st : Engine) :
  mode (step rand ev st) = mode st /\
  isSimulation (step rand ev st) = isSimulation st /\
  (gameState st <> TUTORIAL ->
   gameState (step rand ev st) <> TUTORIAL /\ difficulty (step rand ev st) = difficulty st).
Proof.
  destruct ev as [results| | |d|val]; cbn [step].
  - destruct (onPoseResults_cells results st) as (Hg & Hd & _).
    split; [unfold onPoseResults; branches; reflexivity|].
    split; [unfold onPoseResults; branches; reflexivity|].
    intros H. rewrite Hg, Hd. auto.
  - destruct (updateGame_kept rand st) as [Hk _].
    split; [congruence|]. split; [congruence|]. intros H.
    split; [|congruence].
    destruct (gameState st) eqn:E;
      try (rewrite updateGame_idle by congruence; cbn; congruence).
    destruct (updateGame_playing_scores st E) as ([Hg|Hg] & _); congruence.
  - destruct (gameState st) eqn:E; try (repeat split; cbn; congruence);
      rewrite startGame_cells; cbn; repeat split; congruence.
  - destruct (gameState st) eqn:E; repeat split; cbn; congruence.
  - destruct (isSimulation st) eqn:E; repeat split; cbn; congruence.
Qed.

(** X17. The exercise mode never changes, and the difficulty is fixed once
    the tutorial is left: from a state that is not the tutorial, no run of
    events comes back to the tutorial or changes the difficulty. *)
Theorem difficulty_fixed_after_tutorial (evs : list Event) (st : Engine) :
  mode (run rand evs st) = mode st /\
  (gameState st <> TUTORIAL ->
   gameState (run rand evs st) <> TUTORIAL /\
   difficulty (run rand evs st) = difficulty st).
Proof.
  revert st. induction evs as [|ev evs IH]; intros st; [auto|].
  change (run rand (ev :: evs) st) with (run rand evs (step rand ev st)).
  destruct (step_difficulty ev st) as (Hm & _ & Hd).
  destruct (IH (step rand ev st)) as [IHm IHd].
  split; [congruence|]. intros Hg. destruct (Hd Hg) as [Hg' Hd'].
  destruct (IHd Hg') as [H1 H2]. split; [exact H1 | congruence].
Qed.

End Machine.

Lemma outside_playing_frozen_witness :
  let st := set_gameState GAME_OVER collisionState in
  let evs := [EvFrame; EvPose None; EvSetDifficulty HARD; EvFrame] in
  gameState (run (fun _ => 0.5) evs st) = GAME_OVER /\
  score (run (fun _ => 0.5) evs st) = score st /\
  highScore (run (fun _ => 0.5) evs st) = highScore st /\
  obstacles (run (fun _ => 0.5) evs st) = obstacles st /\
  gameSpeed (run (fun _ => 0.5) evs st) = gameSpeed st /\
  playerY (run (fun _ => 0.5) evs st) = playerY st /\
  playerVelocity (run (fun _ => 0.5) evs st) = playerVelocity st.
Proof.
  intros st evs.
  apply (outside_playing_frozen (fun _ => 0.5) evs st).
  - discriminate.
  - repeat constructor; discriminate.
Defined.

Lemma difficulty_fixed_after_tutorial_witness :
  let evs := [EvSetDifficulty EASY; EvFrame; EvStart; EvSetDifficulty HARD] in
  gameState (run (fun _ => 0.5) evs collisionState) <> TUTORIAL /\
  difficulty (run (fun _ => 0.5) evs collisionState) = MEDIUM.
Proof.
  intros evs.
  destruct (difficulty_fixed_after_tutorial (fun _ => 0.5) evs collisionState) as [_ H].
  apply H. discriminate.
Defined.

(** ** What a spawn makes *)

Lemma inField_intro (x y w h : R) (t : ObstacleType) (c : string) :
  x = CANVAS_WIDTH -> w = 60 \/ w = 80 -> 0 <= y -> 0 < h -> y + h <= CANVAS_HEIGHT ->
  inField (Obstacle.mk x y w h t c).
Proof. intros. unfold inField. cbn. tauto. Qed.

Section Spawn.

Variable rand : nat -> R.

(** X18. With [Math.random] in [0, 1), a spawn appends one obstacle or two,
    each at the right edge, 60 or 80 wide, of positive height and inside the
    field from top to bottom, and raises the scroll speed by the difficulty's
    increment; unless the score has reached 10 it appends exactly one
    pillar. *)
Theorem spawn_in_field (st : Engine) :
  unitRandom rand ->
  spawnDue st = true ->
  gameSpeed (spawnObstacles rand st) = gameSpeed st + speedIncrement (difficulty st) /\
  exists new,
    obstacles (spawnObstacles rand st) = obstacles st ++ new /\
    (length new = 1 \/ length new = 2)%nat /\
    Forall inField new /\
    ((10 <= score st)%Z \/ exists o, new = [o] /\ isPillar o).
Proof.
  intros Hrand Hdue.
  pose proof (Hrand (randomCalls st)) as H0.
  pose proof (Hrand (S (randomCalls st))) as H1.
  pose proof (Hrand (S (S (randomCalls st)))) as H2.
  unfold spawnObstacles, random. rewrite Hdue. cbv beta iota zeta.
  cbn [randomCalls set_randomCalls score difficulty].
  destruct (score st >=? 10)%Z eqn:Eadv; cbn [andb].
  - assert (Hsc : (10 <= score st)%Z) by (apply Z.geb_le in Eadv; lia).
    destruct (rand (randomCalls st) >? 0.6) eqn:E6.
    + unfold pushObstacle. cbn. split; [reflexivity|]. eexists [_; _]. rewrite <- app_assoc.
      split; [reflexivity|]. split; [right; reflexivity|]. split; [|left; exact Hsc].
      assert (Hgap : 150 <= gapSize (difficulty st) <= 300)
        by (destruct (difficulty st); unfold gapSize; lra).
      unfold CANVAS_HEIGHT.
      apply Forall_cons; [|apply Forall_cons; [|apply Forall_nil]];
        (apply inField_intro; unfold CANVAS_HEIGHT; [reflexivity|left; reflexivity|..]);
        try lra; nra.
    + destruct (rand (randomCalls st) >? 0.4) eqn:E4.
      * unfold pushObstacle. cbn. split; [reflexivity|]. eexists [_].
        split; [reflexivity|]. split; [left; reflexivity|]. split; [|left; exact Hsc].
        apply Forall_cons; [|apply Forall_nil].
        apply inField_intro; unfold CANVAS_HEIGHT; [reflexivity|right; reflexivity|..]; nra.
      * unfold pushObstacle. cbn. split; [reflexivity|]. eexists [_].
        split; [reflexivity|]. split; [left; reflexivity|]. split; [|left; exact Hsc].
        apply Forall_cons; [|apply Forall_nil].
        apply inField_intro; unfold CANVAS_HEIGHT; [reflexivity|left; reflexivity|..];
          destruct (rand (S (randomCalls st)) >? 0.5); nra.
  - unfold pushObstacle. cbn. split; [reflexivity|]. eexists [_].
    split; [reflexivity|]. split; [left; reflexivity|]. split.
    + apply Forall_cons; [|apply Forall_nil].
      apply inField_intro; unfold CANVAS_HEIGHT; [reflexivity|left; reflexivity|..];
        destruct (rand (S (randomCalls st)) >? 0.5); nra.
    + right. eexists. split; [reflexivity|].
      unfold isPillar, CANVAS_HEIGHT. cbn.
      split; [reflexivity|]. split; [reflexivity|]. split; [nra|].
      destruct (rand (S (randomCalls st)) >? 0.5); [left; reflexivity|right; lra].
Qed.
(** X19. The two pillars of a gate leave a gap of exactly the difficulty's
    gap size between them: the top one hangs from the top edge, the bottom one
    stands on the bottom edge, and each is at least 50 high.  An avatar whose
    box lies within the gap touches neither pillar wherever they are across
    the field, and some avatar height of [0, 660] does lie within the gap. *)
Theorem gate_passable (st : Engine) :
  unitRandom rand ->
  spawnDue st = true -> (score st >= 10)%Z -> rand (randomCalls st) > 0.6 ->
  exists top bottom,
    obstacles (spawnObstacles rand st) = obstacles st ++ [top; bottom] /\
    Obstacle.y top = 0 /\ 50 <= Obstacle.h top /\
    Obstacle.y bottom = Obstacle.h top + gapSize (difficulty st) /\
    Obstacle.y bottom + Obstacle.h bottom = CANVAS_HEIGHT /\ 50 < Obstacle.h bottom /\
    (forall y x, Obstacle.h top + 30 <= y <= Obstacle.y bottom - 30 ->
       collides y (Obstacle.set_x x top) = false /\
       collides y (Obstacle.set_x x bottom) = false) /\
    (exists y, 0 <= y <= CANVAS_HEIGHT - 60 /\
               Obstacle.h top + 30 <= y <= Obstacle.y bottom - 30).
Proof.
  intros Hrand Hdue Hscore H6.
  pose proof (Hrand (S (randomCalls st))) as H1.
  pose proof (gate_spawn rand st Hdue Hscore H6) as Hsp. cbv zeta in Hsp.
  set (gapY := rand (S (randomCalls st)) * (CANVAS_HEIGHT - gapSize (difficulty st) - 100) + 50)
    in *.
  assert (Hgap : 150 <= gapSize (difficulty st) <= 300)
    by (destruct (difficulty st); unfold gapSize; lra).
  assert (HgY : 50 <= gapY < CANVAS_HEIGHT - gapSize (difficulty st) - 50).
  { unfold gapY, CANVAS_HEIGHT in *. nra. }
  eexists _, _. split; [exact Hsp|]. cbn [Obstacle.y Obstacle.h].
  unfold CANVAS_HEIGHT in *.
  repeat split; try lra.
  - unfold collides. cbn. apply andb_false_iff. right. apply Rltb_false. lra.
  - unfold collides. cbn. apply andb_false_iff. left.
    apply andb_false_iff. right. apply Rgtb_false. lra.
  - exists (gapY + 30). lra.
Qed.

End Spawn.

Lemma spawn_in_field_witness :
  let rand := fun _ : nat => 0.7 in
  gameSpeed (spawnObstacles rand gateSpawnState) = 6.5 + 0.05 /\
  exists new,
    obstacles (spawnObstacles rand gateSpawnState) = obstacles gateSpawnState ++ new /\
    (length new = 1 \/ length new = 2)%nat /\
    Forall inField new /\
    ((10 <= score gateSpawnState)%Z \/ exists o, new = [o] /\ isPillar o).
Proof.
  intros rand.
  apply (spawn_in_field rand gateSpawnState).
  - intros k. unfold rand. lra.
  - reflexivity.
Defined.

Lemma gate_passable_witness :
  let rand := fun _ : nat => 0.7 in
  exists top bottom,
    obstacles (spawnObstacles rand gateSpawnState) = obstacles gateSpawnState ++ [top; bottom] /\
    Obstacle.y top = 0 /\ 50 <= Obstacle.h top /\
    Obstacle.y bottom = Obstacle.h top + gapSize (difficulty gateSpawnState) /\
    Obstacle.y bottom + Obstacle.h bottom = CANVAS_HEIGHT /\ 50 < Obstacle.h bottom /\
    (forall y x, Obstacle.h top + 30 <= y <= Obstacle.y bottom - 30 ->
       collides y (Obstacle.set_x x top) = false /\
       collides y (Obstacle.set_x x bottom) = false) /\
    (exists y, 0 <= y <= CANVAS_HEIGHT - 60 /\
               Obstacle.h top + 30 <= y <= Obstacle.y bottom - 30).
Proof.
  intros rand.
  apply (gate_passable rand gateSpawnState).
  - intros k. unfold rand. lra.
  - reflexivity.
  - cbn. lia.
  - unfold rand. lra.
Defined.

(** ** Frames, further *)

Lemma gameState_eq_dec (a b : GameState) : {a = b} + {a <> b}.
Proof. decide equality. Qed.

Section FrameEffects.

Variable rand : nat -> R.

Lemma spawned_speed (st : Engine) :
  gameSpeed (spawned rand st)
  = gameSpeed st + (if spawnDue st then speedIncrement (difficulty st) else 0).
Proof.
  destruct (spawnDue st) eqn:E.
  - unfold spawned.
    assert (Hd : spawnDue (playerPhysics st) = true) by (rewrite spawnDue_physics; exact E).
    destruct (spawnObstacles_due rand _ Hd) as [H _]. rewrite H.
    pose proof (playerPhysics_world st) as Hw. pose proof (playerPhysics_kept st) as Hk.
    unfold world in Hw.
    replace (gameSpeed (playerPhysics st)) with (gameSpeed st) by congruence.
    replace (difficulty (playerPhysics st)) with (difficulty st) by congruence.
    reflexivity.
  - destruct (spawned_idle rand st E) as [_ H]. rewrite H. lra.
Qed.

Lemma step_speed (ev : Event) (st : Engine) :
  gameSpeed (step rand ev st) = gameSpeed st \/
  ev = EvStart \/
  (ev = EvFrame /\ gameState st = PLAYING /\ spawnDue st = true /\
   gameSpeed (step rand ev st) = gameSpeed st + speedIncrement (difficulty st)).
Proof.
  destruct ev as [results| | |d|val]; cbn [step].
  - left. apply onPoseResults_cells.
  - destruct (gameState_eq_dec (gameState st) PLAYING) as [E|E].
    + destruct (updateGame_array rand st E) as (_ & Hs & _).
      rewrite Hs, spawned_speed.
      destruct (spawnDue st); [|left; lra].
      right. right. repeat split. exact E.
    + left. apply (updateGame_idle_cells rand st E).
  - right. left. reflexivity.
  - left. destruct (gameState st); reflexivity.
  - left. destruct (isSimulation st); reflexivity.
Qed.

(** X20. The scroll speed never goes down except by a press of START or Try
    Again: over a run without one it ends no lower than it began.  And one
    event changes it only if it is such a press, or an animation frame
    executed while Playing whose frame count is divisible by the spawn rate,
    which adds the difficulty's increment once. *)
Theorem speed_never_drops (evs : list Event) (st : Engine) (ev : Event) (st1 : Engine) :
  noStart evs ->
  gameSpeed st <= gameSpeed (run rand evs st) /\
  (gameSpeed (step rand ev st1) = gameSpeed st1 \/
   ev = EvStart \/
   (ev = EvFrame /\ gameState st1 = PLAYING /\ spawnDue st1 = true /\
    gameSpeed (step rand ev st1) = gameSpeed st1 + speedIncrement (difficulty st1))).
Proof.
  intros Hevs. split; [|apply step_speed].
  revert st. induction Hevs as [|e evs He Hevs IH]; intros st; [cbn; lra|].
  cbn [run fold_left]. specialize (IH (step rand e st)). unfold run in IH.
  assert (gameSpeed st <= gameSpeed (step rand e st)); [|lra].
  destruct (step_speed e st) as [H|[H|(_ & _ & _ & H)]]; [lra|contradiction|].
  rewrite H. pose proof (speedIncrement_pos (difficulty st)). lra.
Qed.

(** X21. One frame while Playing, as a whole: with the speed and the
    obstacles that the spawn logic leaves, every obstacle moves left by the
    speed, those fully past the left edge are dropped and each of them scores
    a point, whether or not the frame also ends the run; the run ends exactly
    when some moved obstacle overlaps the avatar, and the high score then
    becomes the larger of itself and the score at the start of the frame, so
    the points of the last frame do not count towards it. *)
Theorem frame_moves_and_scores (st : Engine) :
  gameState st = PLAYING ->
  let s := gameSpeed (spawned rand st) in
  let obs := obstacles (spawned rand st) in
  let fatal := hit (playerY (playerPhysics st)) s obs in
  obstacles (updateGame rand st) = survivors s obs /\
  score (updateGame rand st)
  = (score st + Z.of_nat (length (filter exited (map (moved s) obs))))%Z /\
  gameState (updateGame rand st) = (if fatal then GAME_OVER else PLAYING) /\
  highScore (updateGame rand st)
  = (if fatal then Z.max (highScore st) (score st) else highScore st).
Proof.
  intros Hplaying s obs fatal.
  destruct (updateGame_playing_cells rand st Hplaying) as (Hg & Hs & Hh & Ho & _).
  destruct (playingFrame_spec rand st) as (Hobs & _ & Hsc & _ & Hhit).
  fold s obs fatal in Hobs, Hsc, Hhit.
  rewrite Hg, Hs, Hh, Ho, Hobs, Hsc.
  split; [reflexivity|]. split.
  - unfold survivors.
    pose proof (filter_length exited (map (moved s) obs)) as Hl.
    rewrite length_map in Hl. lia.
  - destruct fatal; destruct Hhit as [H1 H2]; split; congruence.
Qed.

End FrameEffects.

Lemma speed_never_drops_witness :
  let rand := fun _ : nat => 0.7 in
  let evs := [EvPose None; EvFrame; EvSlider 1] in
  gameSpeed gateSpawnState <= gameSpeed (run rand evs gateSpawnState) /\
  (gameSpeed (step rand EvFrame gateSpawnState) = gameSpeed gateSpawnState \/
   EvFrame = EvStart \/
   (EvFrame = EvFrame /\ gameState gateSpawnState = PLAYING /\
    spawnDue gateSpawnState = true /\
    gameSpeed (step rand EvFrame gateSpawnState)
    = gameSpeed gateSpawnState + speedIncrement (difficulty gateSpawnState))).
Proof.
  intros rand evs.
  apply (speed_never_drops rand evs gateSpawnState EvFrame gateSpawnState).
  unfold noStart, evs. repeat (apply Forall_cons; [discriminate|]). apply Forall_nil.
Defined.

Lemma frame_moves_and_scores_witness :
  let rand := fun _ : nat => 0.7 in
  let s := gameSpeed (spawned rand gateExitState) in
  let obs := obstacles (spawned rand gateExitState) in
  let fatal := hit (playerY (playerPhysics gateExitState)) s obs in
  obstacles (updateGame rand gateExitState) = survivors s obs /\
  score (updateGame rand gateExitState)
  = (score gateExitState + Z.of_nat (length (filter exited (map (moved s) obs))))%Z /\
  gameState (updateGame rand gateExitState) = (if fatal then GAME_OVER else PLAYING) /\
  highScore (updateGame rand gateExitState)
  = (if fatal then Z.max (highScore gateExitState) (score gateExitState)
     else highScore gateExitState).
Proof.
  intros rand.
  apply (frame_moves_and_scores rand gateExitState).
  reflexivity.
Defined.

(** ** Cues *)

Section Cues.

Variable rand : nat -> R.

Lemma incrementScore_cue (st : Engine) :
  played (incrementScore rand st)
  = played st
    ++ (if ((score st + 1 >? 0) && (Z.rem (score st + 1) 10 =? 0))%Z
        then [snd_score] else []).
Proof.
  unfold incrementScore. cbv zeta. rewrite played_set_score. destruct (_ && _).
  - destruct (createSparkles_cells rand (playSound snd_score st)) as (_ & _ & _ & _ & _ & H).
    cbv zeta in H. rewrite H. reflexivity.
  - rewrite app_nil_r. reflexivity.
Qed.

Lemma updateObstacles_cues (score0 highScore0 : Z) (obs : list Obstacle.t) (st : Engine) :
  exists l,
    played (snd (updateObstacles rand score0 highScore0 obs st)) = played st ++ l /\
    Forall frameCue l /\
    length (filter isGameover l)
    = length (filter (fun o => collides (playerY st) (moved (gameSpeed st) o)) obs).
Proof.
  induction obs as [|o later IH].
  - exists []. cbn. rewrite app_nil_r. repeat split. apply Forall_nil.
  - cbn [updateObstacles].
    pose proof (updateObstacles_kept rand score0 highScore0 later st) as Hk.
    pose proof (updateObstacles_spec rand score0 highScore0 later st) as Hsp.
    cbv zeta in Hsp.
    destruct (updateObstacles rand score0 highScore0 later st) as [kept' st1].
    cbn [fst snd] in IH, Hk, Hsp.
    destruct IH as (l & Hl & HF & Hn). destruct Hsp as (_ & Hv & _).
    assert (Hy : playerY st1 = playerY st) by (unfold kept in Hk; congruence).
    rewrite Hv, Hy. fold (moved (gameSpeed st) o). cbn [filter].
    set (o' := moved (gameSpeed st) o) in *.
    set (st2 := if collides (playerY st) o'
                then (if (score0 >? highScore0)%Z
                      then set_highScore score0 (set_gameState GAME_OVER (playSound snd_gameover st1))
                      else set_gameState GAME_OVER (playSound snd_gameover st1))
                else st1).
    assert (H2 : played st2
                 = played st ++ l ++ (if collides (playerY st) o' then [snd_gameover] else [])).
    { unfold st2. destruct (collides (playerY st) o').
      - destruct (score0 >? highScore0)%Z; cbn; rewrite Hl, app_assoc; reflexivity.
      - rewrite app_nil_r. exact Hl. }
    clearbody st2.
    assert (H3 : forall tail, Forall frameCue tail -> filter isGameover tail = [] ->
              Forall frameCue
                (l ++ (if collides (playerY st) o' then [snd_gameover] else []) ++ tail) /\
              length (filter isGameover
                (l ++ (if collides (playerY st) o' then [snd_gameover] else []) ++ tail))
              = length (if collides (playerY st) o'
                        then o :: filter (fun o0 => collides (playerY st) (moved (gameSpeed st) o0)) later
                        else filter (fun o0 => collides (playerY st) (moved (gameSpeed st) o0)) later)).
    { intros tail Ht Hg. split.
      - apply Forall_app. split; [exact HF|]. apply Forall_app. split; [|exact Ht].
        destruct (collides _ _); [|apply Forall_nil].
        apply Forall_cons; [left; reflexivity|apply Forall_nil].
      - rewrite !filter_app, !length_app, Hg, Hn.
        destruct (collides _ _); cbn; lia. }
    destruct (Obstacle.x o' + Obstacle.w o' <? 0); cbn [snd].
    + rewrite incrementScore_cue, H2.
      eexists. rewrite <- !app_assoc. split; [reflexivity|].
      apply H3.
      * destruct (_ && _)%bool; [|apply Forall_nil].
        apply Forall_cons; [right; reflexivity|apply Forall_nil].
      * destruct (_ && _)%bool; reflexivity.
    + rewrite H2.
      exists (l ++ (if collides (playerY st) o' then [snd_gameover] else []) ++ []).
      split; [rewrite app_nil_r; reflexivity|].
      apply H3; [apply Forall_nil|reflexivity].
Qed.

Lemma playingFrame_cues (st : Engine) :
  exists l,
    played (playingFrame rand st) = played st ++ l /\
    Forall frameCue l /\
    length (filter isGameover l)
    = length (filter (fun o => collides (playerY (playerPhysics st))
                                 (moved (gameSpeed (spawned rand st)) o))
                (obstacles (spawned rand st))).
Proof.
  unfold playingFrame. cbv zeta. fold (spawned rand st).
  destruct (updateObstacles_cues (score st) (highScore st)
              (obstacles (spawned rand st)) (spawned rand st)) as (l & Hl & HF & Hn).
  destruct (updateObstacles rand (score st) (highScore st) (obstacles (spawned rand st))
              (spawned rand st)) as [kept' st'].
  cbn [snd] in Hl.
  destruct (spawnObstacles_cells rand (playerPhysics st)) as (_ & _ & _ & Hp1).
  fold (spawned rand st) in Hp1.
  pose proof (playerPhysics_world st) as Hw. unfold world in Hw.
  assert (Hy : playerY (spawned rand st) = playerY (playerPhysics st)).
  { pose proof (spawnObstacles_kept rand (playerPhysics st)) as Hk.
    unfold kept in Hk. unfold spawned. congruence. }
  rewrite Hy in Hn.
  replace (played (spawned rand st)) with (played st) in Hl by congruence.
  exists l. split; [exact Hl|]. split; [exact HF|exact Hn].
Qed.

(** X22. Each event requests cues of its own kind only, and appends them to
    the ones requested before: a pose result at most one jump cue, a press of
    START or Try Again the start cue, a frame only game-over and score cues,
    and none at all outside Playing; the difficulty buttons and the slider
    request nothing. *)
Theorem cues_by_event (ev : Event) (st : Engine) :
  exists l,
    played (step rand ev st) = played st ++ l /\
    match ev with
    | EvPose _ => l = [] \/ l = [snd_jump]
    | EvFrame => Forall frameCue l /\ (gameState st = PLAYING \/ l = [])
    | EvStart => l = match gameState st with
                     | TUTORIAL | GAME_OVER => [snd_start]
                     | _ => []
                     end
    | EvSetDifficulty _ | EvSlider _ => l = []
    end.
Proof.
  destruct ev as [results| | |d|val]; cbn [step].
  - rewrite onPoseResults_played. destruct (_ && _)%bool.
    + exists [snd_jump]. split; [reflexivity|right; reflexivity].
    + exists []. rewrite app_nil_r. split; [reflexivity|left; reflexivity].
  - destruct (gameState_eq_dec (gameState st) PLAYING) as [E|E].
    + destruct (updateGame_playing_cells rand st E) as (_ & _ & _ & _ & _ & H).
      destruct (playingFrame_cues st) as (l & Hl & HF & _).
      exists l. rewrite H. split; [exact Hl|]. split; [exact HF|left; exact E].
    + exists []. rewrite app_nil_r.
      destruct (updateGame_idle_cells rand st E) as (_ & _ & _ & _ & _ & _ & _ & H).
      split; [exact H|]. split; [apply Forall_nil|right; reflexivity].
  - destruct (gameState st) eqn:E.
    + exists []. rewrite app_nil_r. split; reflexivity.
    + exists [snd_start]. split; [|reflexivity]. unfold startGame. cbv zeta.
      cbn. destruct (difficulty st); reflexivity.
    + exists []. rewrite app_nil_r. split; reflexivity.
    + exists [snd_start]. split; [|reflexivity]. unfold startGame. cbv zeta.
      cbn. destruct (difficulty st); reflexivity.
  - exists []. rewrite app_nil_r. split; [|reflexivity].
    destruct (gameState st); reflexivity.
  - exists []. rewrite app_nil_r. split; [|reflexivity].
    destruct (isSimulation st); reflexivity.
Qed.

(** X23. A frame that ends the run requests the game-over cue once for every
    obstacle that overlaps the avatar after the move, not once for the frame. *)
Theorem gameover_cue_per_obstacle (st : Engine) :
  gameState st = PLAYING ->
  exists l,
    played (updateGame rand st) = played st ++ l /\
    length (filter isGameover l)
    = length (filter (fun o => collides (playerY (playerPhysics st))
                                 (moved (gameSpeed (spawned rand st)) o))
                (obstacles (spawned rand st))).
Proof.
  intros Hplaying.
  destruct (updateGame_playing_cells rand st Hplaying) as (_ & _ & _ & _ & _ & H).
  destruct (playingFrame_cues st) as (l & Hl & _ & Hn).
  exists l. rewrite H. split; [exact Hl|exact Hn].
Qed.

End Cues.

Lemma gameover_cue_per_obstacle_witness :
  let rand := fun _ : nat => 0.7 in
  exists l,
    played (updateGame rand collisionState) = played collisionState ++ l /\
    length (filter isGameover l)
    = length (filter (fun o => collides (playerY (playerPhysics collisionState))
                                 (moved (gameSpeed (spawned rand collisionState)) o))
                (obstacles (spawned rand collisionState))).
Proof.
  intros rand.
  apply (gameover_cue_per_obstacle rand collisionState).
  reflexivity.
Defined.

(** ** Sparkles *)

Lemma color_in_palette (r : R) :
  0 <= r < 1 ->
  In (nth (Z.to_nat (floor (r * INR (length colors)))) colors EmptyString) colors.
Proof.
  intros Hr. apply nth_In. change (length colors) with 6%nat.
  pose proof (floor_bounds (r * INR 6)) as Hf.
  replace (INR 6) with 6 in * by (simpl; lra).
  assert (H1 : (floor (r * 6) < 6)%Z) by (apply lt_IZR; lra).
  assert (H2 : (-1 < floor (r * 6))%Z) by (apply lt_IZR; lra).
  lia.
Qed.

Lemma fresh_live (s : Sparkle.t) : freshSparkle s -> liveSparkle s.
Proof.
  unfold freshSparkle, liveSparkle.
  intros (_ & _ & _ & _ & Hs & Hc & Ha & Hd & Ht). rewrite Ha.
  repeat split; try assumption; lra.
Qed.

Lemma stepSparkle_live (s s' : Sparkle.t) :
  liveSparkle s -> stepSparkle s = Some s' -> liveSparkle s'.
Proof.
  unfold liveSparkle, stepSparkle. cbv zeta.
  intros (Ha & Hd & Hs & Hc & Ht) H.
  destruct (Sparkle.alpha s - Sparkle.decay s <=? 0) eqn:E; [discriminate|].
  apply Rleb_false in E. injection H as <-. cbn.
  repeat split; try assumption; lra.
Qed.

Lemma fade_live (l : list Sparkle.t) : Forall liveSparkle l -> Forall liveSparkle (fade l).
Proof.
  induction 1 as [|s l Hs Hl IH]; [apply Forall_nil|].
  unfold fade in *. cbn [flat_map].
  destruct (stepSparkle s) as [s'|] eqn:E; [|exact IH].
  apply Forall_cons; [exact (stepSparkle_live s s' Hs E)|exact IH].
Qed.

Lemma updateSparkles_iter (k : nat) (st : Engine) :
  sparklesRef (Nat.iter k updateSparkles st) = Nat.iter k fade (sparklesRef st).
Proof.
  induction k as [|k IH]; [reflexivity|].
  rewrite !Nat.iter_succ, <- IH. reflexivity.
Qed.

Lemma fade_young (k : nat) (l : list Sparkle.t) :
  (S k <= 33)%nat ->
  Forall (fun s => 1 - INR k * 0.03 <= Sparkle.alpha s /\ Sparkle.decay s < 0.03) l ->
  length (fade l) = length l /\
  Forall (fun s => 1 - INR (S k) * 0.03 <= Sparkle.alpha s /\ Sparkle.decay s < 0.03)
    (fade l).
Proof.
  intros Hk. apply le_INR in Hk. replace (INR 33) with 33 in Hk by (simpl; lra).
  rewrite S_INR in *.
  induction 1 as [|s l [Ha Hd] Hl [IHn IHf]]; [split; [reflexivity|apply Forall_nil]|].
  unfold fade in *. cbn [flat_map]. unfold stepSparkle at 1 3. cbv zeta.
  destruct (Sparkle.alpha s - Sparkle.decay s <=? 0) eqn:E.
  - apply Rleb_true in E. lra.
  - cbn [app length]. split; [rewrite IHn; reflexivity|].
    apply Forall_cons; [cbn; lra|exact IHf].
Qed.

Lemma fade_old (k : nat) (l : list Sparkle.t) :
  Forall (fun s => Sparkle.alpha s <= 1 - INR k * 0.01 /\ 0.01 <= Sparkle.decay s) l ->
  Forall (fun s => 0 < Sparkle.alpha s <= 1 - INR (S k) * 0.01 /\ 0.01 <= Sparkle.decay s)
    (fade l).
Proof.
  rewrite S_INR.
  induction 1 as [|s l [Ha Hd] Hl IH]; [apply Forall_nil|].
  unfold fade in *. cbn [flat_map]. unfold stepSparkle at 1. cbv zeta.
  destruct (Sparkle.alpha s - Sparkle.decay s <=? 0) eqn:E; [exact IH|].
  apply Rleb_false in E. cbn [app].
  apply Forall_cons; [cbn; lra|exact IH].
Qed.

Lemma fade_young_iter (k : nat) (l : list Sparkle.t) :
  (k <= 33)%nat ->
  Forall (fun s => Sparkle.alpha s = 1 /\ Sparkle.decay s < 0.03) l ->
  length (Nat.iter k fade l) = length l /\
  Forall (fun s => 1 - INR k * 0.03 <= Sparkle.alpha s /\ Sparkle.decay s < 0.03)
    (Nat.iter k fade l).
Proof.
  intros Hk Hl. induction k as [|k IH].
  - split; [reflexivity|]. cbn. eapply Forall_impl; [|exact Hl].
    cbn. intros s [Ha Hd]. lra.
  - destruct IH as [IHn IHf]; [lia|].
    rewrite Nat.iter_succ.
    destruct (fade_young k _ Hk IHf) as [Hn Hf].
    split; [rewrite Hn; exact IHn|exact Hf].
Qed.

Lemma fade_old_iter (k : nat) (l : list Sparkle.t) :
  Forall (fun s => Sparkle.alpha s <= 1 /\ 0.01 <= Sparkle.decay s) l ->
  Forall (fun s => Sparkle.alpha s <= 1 - INR k * 0.01 /\ 0.01 <= Sparkle.decay s)
    (Nat.iter k fade l).
Proof.
  intros Hl. induction k as [|k IH].
  - cbn. eapply Forall_impl; [|exact Hl]. cbn. intros s [Ha Hd]. lra.
  - rewrite Nat.iter_succ. eapply Forall_impl; [|exact (fade_old k _ IH)].
    cbn. intros s [Ha Hd]. lra.
Qed.

(** X24. The sparkles of a burst last for 33 passes of the sparkle loop at
    least, one pass being made per frame, and for fewer than 100: after each
    of the first 33 passes every one of them is still in the list, and after
    100 passes none is. *)
Theorem burst_lifetime (st : Engine) :
  Forall freshSparkle (sparklesRef st) ->
  (forall k, (k <= 33)%nat ->
     length (sparklesRef (Nat.iter k updateSparkles st)) = length (sparklesRef st)) /\
  sparklesRef (Nat.iter 100 updateSparkles st) = [].
Proof.
  intros H. split.
  - intros k Hk. rewrite updateSparkles_iter.
    apply fade_young_iter; [exact Hk|].
    eapply Forall_impl; [|exact H]. unfold freshSparkle. intros s Hs. split; [tauto|lra].
  - rewrite updateSparkles_iter.
    assert (Ho : Forall (fun s => Sparkle.alpha s <= 1 /\ 0.01 <= Sparkle.decay s)
                   (sparklesRef st)).
    { eapply Forall_impl; [|exact H]. unfold freshSparkle. intros s Hs. split; lra. }
    pose proof (fade_old 99 _ (fade_old_iter 99 _ Ho)) as Hf.
    rewrite <- Nat.iter_succ in Hf.
    destruct (Nat.iter 100 fade (sparklesRef st)) as [|s l]; [reflexivity|].
    apply Forall_inv in Hf. cbv beta in Hf.
    replace (INR 100) with 100 in Hf by (rewrite INR_IZR_INZ; reflexivity).
    lra.
Qed.

Lemma burst_lifetime_witness :
  (forall k, (k <= 33)%nat ->
     length (sparklesRef (Nat.iter k updateSparkles burstState))
     = length (sparklesRef burstState)) /\
  sparklesRef (Nat.iter 100 updateSparkles burstState) = [].
Proof.
  apply (burst_lifetime burstState).
  apply Forall_cons; [|apply Forall_nil].
  unfold freshSparkle, CANVAS_WIDTH. cbn.
  repeat split; try lra. left. reflexivity.
Defined.

(** ** Bursts *)

Section Bursts.

Variable rand : nat -> R.
Hypothesis Hrand : unitRandom rand.

Lemma pushSparkle_fresh (st : Engine) :
  exists s,
    sparklesRef (pushSparkle rand st) = sparklesRef st ++ [s] /\
    freshSparkle s /\
    randomCalls (pushSparkle rand st) = (5 + randomCalls st)%nat.
Proof.
  pose proof (Hrand (randomCalls st)) as H1.
  pose proof (Hrand (S (randomCalls st))) as H2.
  pose proof (Hrand (S (S (randomCalls st)))) as H3.
  pose proof (Hrand (S (S (S (randomCalls st))))) as H4.
  pose proof (Hrand (S (S (S (S (randomCalls st)))))) as H5.
  eexists. split; [reflexivity|]. split; [|reflexivity].
  unfold freshSparkle.
  cbn [Sparkle.x Sparkle.y Sparkle.vx Sparkle.vy Sparkle.size Sparkle.color Sparkle.alpha
       Sparkle.decay Sparkle.type].
  split; [reflexivity|]. split; [reflexivity|].
  split; [change (-7.5 <= (rand (randomCalls st) - 0.5) * 15 < 7.5); lra|].
  split; [change (-7.5 <= (rand (S (randomCalls st)) - 0.5) * 15 < 7.5); lra|].
  split; [change (3 <= rand (S (S (randomCalls st))) * 6 + 3 < 9); lra|].
  split; [exact (color_in_palette _ H4)|].
  split; [lra|].
  split; [change (0.01 <= rand (S (S (S (S (randomCalls st))))) * 0.02 + 0.01 < 0.03); lra|].
  reflexivity.
Qed.

Lemma pushSparkle_iter (n : nat) (st : Engine) :
  exists new,
    sparklesRef (Nat.iter n (pushSparkle rand) st) = sparklesRef st ++ new /\
    length new = n /\ Forall freshSparkle new /\
    randomCalls (Nat.iter n (pushSparkle rand) st) = (5 * n + randomCalls st)%nat.
Proof.
  induction n as [|n (new & Hs & Hn & Hf & Hc)].
  - exists []. rewrite app_nil_r. repeat split. apply Forall_nil.
  - rewrite Nat.iter_succ.
    destruct (pushSparkle_fresh (Nat.iter n (pushSparkle rand) st)) as (s & Hs' & Hf' & Hc').
    exists (new ++ [s]). rewrite Hs', Hc', Hs, Hc, length_app, Hn, app_assoc.
    split; [reflexivity|]. split; [cbn; lia|]. split; [|lia].
    apply Forall_app. split; [exact Hf|]. apply Forall_cons; [exact Hf'|apply Forall_nil].
Qed.

Lemma createSparkles_live (st : Engine) :
  Forall liveSparkle (sparklesRef st) ->
  Forall liveSparkle (sparklesRef (createSparkles rand st)).
Proof.
  intros H. unfold createSparkles.
  destruct (pushSparkle_iter 40 st) as (new & Hs & _ & Hf & _). rewrite Hs.
  apply Forall_app. split; [exact H|].
  eapply Forall_impl; [|exact Hf]. exact fresh_live.
Qed.

Lemma incrementScore_live (st : Engine) :
  Forall liveSparkle (sparklesRef st) ->
  Forall liveSparkle (sparklesRef (incrementScore rand st)).
Proof.
  intros H. unfold incrementScore. cbv zeta.
  change (Forall liveSparkle
            (sparklesRef (if ((score st + 1 >? 0) && (Z.rem (score st + 1) 10 =? 0))%Z
                          then createSparkles rand (playSound snd_score st) else st))).
  destruct (_ && _)%bool; [|exact H].
  apply createSparkles_live. exact H.
Qed.

Lemma updateObstacles_live (score0 highScore0 : Z) (obs : list Obstacle.t) (st : Engine) :
  Forall liveSparkle (sparklesRef st) ->
  Forall liveSparkle (sparklesRef (snd (updateObstacles rand score0 highScore0 obs st))).
Proof.
  intros H. induction obs as [|o later IH]; [exact H|].
  cbn [updateObstacles].
  destruct (updateObstacles rand score0 highScore0 later st) as [kept' st1].
  cbn [snd] in IH.
  destruct (collides _ _); [destruct (score0 >? highScore0)%Z|];
    (destruct (_ <? 0); cbn [snd]; [apply incrementScore_live|]; exact IH).
Qed.

Lemma spawnObstacles_sparkles (st : Engine) :
  sparklesRef (spawnObstacles rand st) = sparklesRef st.
Proof.
  unfold spawnObstacles, random. destruct (spawnDue st); [|reflexivity].
  cbv beta iota zeta. branches; reflexivity.
Qed.

Lemma playingFrame_live (st : Engine) :
  Forall liveSparkle (sparklesRef st) ->
  Forall liveSparkle (sparklesRef (playingFrame rand st)).
Proof.
  intros H. unfold playingFrame. cbv zeta.
  pose proof (updateObstacles_live (score st) (highScore st)
                (obstacles (spawnObstacles rand (playerPhysics st)))
                (spawnObstacles rand (playerPhysics st))) as Hu.
  destruct (updateObstacles _ _ _ _ _) as [kept' st'].
  cbn [snd] in Hu. apply Hu.
  rewrite spawnObstacles_sparkles.
  pose proof (playerPhysics_world st) as Hw. unfold world in Hw.
  replace (sparklesRef (playerPhysics st)) with (sparklesRef st) by congruence.
  exact H.
Qed.

Lemma updateGame_live (st : Engine) :
  Forall liveSparkle (sparklesRef st) ->
  Forall liveSparkle (sparklesRef (updateGame rand st)).
Proof.
  intros H. unfold updateGame. cbv zeta.
  match goal with
  | |- Forall _ (sparklesRef (set_frameRef _ (updateSparkles ?X))) =>
      change (Forall liveSparkle (fade (sparklesRef X)))
  end.
  apply fade_live.
  destruct (gameState st); try exact H. apply playingFrame_live. exact H.
Qed.

Lemma onPoseResults_sparkles (results : option (nat -> Point.t)) (st : Engine) :
  sparklesRef (onPoseResults results st) = sparklesRef st.
Proof. unfold onPoseResults. branches; reflexivity. Qed.

Lemma step_live (ev : Event) (st : Engine) :
  Forall liveSparkle (sparklesRef st) ->
  Forall liveSparkle (sparklesRef (step rand ev st)).
Proof.
  intros H. destruct ev as [results| | |d|val]; cbn [step].
  - rewrite onPoseResults_sparkles. exact H.
  - apply updateGame_live. exact H.
  - destruct (gameState st); try exact H;
      unfold startGame; cbv zeta; cbn; destruct (difficulty st); apply Forall_nil.
  - destruct (gameState st); exact H.
  - destruct (isSimulation st); exact H.
Qed.

Lemma run_live (evs : list Event) (st : Engine) :
  Forall liveSparkle (sparklesRef st) ->
  Forall liveSparkle (sparklesRef (run rand evs st)).
Proof.
  revert st. induction evs as [|ev evs IH]; intros st H; [exact H|].
  cbn [run fold_left]. apply IH, step_live, H.
Qed.

End Bursts.

(** X25. With [Math.random] in [0, 1), a burst appends exactly 40 sparkles
    and draws exactly 200 random numbers; each sparkle starts at (640, 120),
    opaque, as a star, its two velocities in [-7.5, 7.5), its size in [3, 9),
    its decay in [0.01, 0.03) and its colour one of the six of the palette,
    so the index into the palette is never out of range. *)
Theorem createSparkles_burst (rand : nat -> R) (st : Engine) :
  unitRandom rand ->
  exists new,
    sparklesRef (createSparkles rand st) = sparklesRef st ++ new /\
    length new = 40%nat /\ Forall freshSparkle new /\
    randomCalls (createSparkles rand st) = (200 + randomCalls st)%nat.
Proof.
  intros Hrand. unfold createSparkles.
  destruct (pushSparkle_iter rand Hrand 40 st) as (new & Hs & Hn & Hf & Hc).
  exists new. repeat split; assumption.
Qed.

Lemma createSparkles_burst_witness :
  let rand := fun _ : nat => 0.7 in
  exists new,
    sparklesRef (createSparkles rand burstState) = sparklesRef burstState ++ new /\
    length new = 40%nat /\ Forall freshSparkle new /\
    randomCalls (createSparkles rand burstState) = (200 + randomCalls burstState)%nat.
Proof.
  intros rand.
  apply (createSparkles_burst rand burstState).
  intros k. unfold rand. lra.
Defined.

(** X26. With [Math.random] in [0, 1), whatever has happened to the mounted
    component, every sparkle in its list is one that a burst made and that is
    still visible: its alpha is in (0, 1], its decay in [0.01, 0.03), its size
    in [3, 9), its colour in the palette, its shape a star. *)
Theorem sparkles_stay_live (rand : nat -> R) (evs : list Event) (m : GameMode) :
  unitRandom rand ->
  Forall liveSparkle (sparklesRef (run rand evs (initialEngine m))).
Proof.
  intros Hrand. apply run_live; [exact Hrand|]. apply Forall_nil.
Qed.

Lemma sparkles_stay_live_witness :
  let rand := fun _ : nat => 0.7 in
  Forall liveSparkle
    (sparklesRef (run rand [EvStart; EvFrame; EvFrame] (initialEngine SQUAT))).
Proof.
  intros rand.
  apply (sparkles_stay_live rand [EvStart; EvFrame; EvFrame] SQUAT).
  intros k. unfold rand. lra.
Defined.

(** ** The avatar between frames *)

Lemma hard_physics (st : Engine) :
  difficulty st = HARD -> 0 <= intensityRef st <= 1 -> 0 <= playerVelocity st ->
  0 <= playerY st <= CANVAS_HEIGHT - 60 ->
  0 <= playerVelocity (playerPhysics st) /\
  playerY st <= playerY (playerPhysics st) <= CANVAS_HEIGHT - 60.
Proof.
  intros Hd Hi Hv Hy.
  assert (Hn : 0 <= nextVelocity st).
  { unfold nextVelocity. rewrite Hd. unfold liftMultiplier, gravity. rminmax; nra. }
  destruct (Rle_dec (playerY st + nextVelocity st) (CANVAS_HEIGHT - 60)) as [Hle|Hgt].
  - destruct (playerPhysics_free st) as [H1 H2]; [lra|]. rewrite H1, H2. lra.
  - destruct (playerPhysics_floor st) as [H1 H2]; [lra|]. rewrite H1, H2.
    unfold CANVAS_HEIGHT in *. lra.
Qed.

Section Avatar.

Variable rand : nat -> R.

Lemma hard_step (ev : Event) (st : Engine) :
  hardCamera st -> ev <> EvStart ->
  hardCamera (step rand ev st) /\ playerY st <= playerY (step rand ev st).
Proof.
  intros (Hd & Hg & Hs & Hi & Hv & Hy) Hev.
  destruct (step_difficulty rand ev st) as (_ & Hs' & Hgd).
  destruct (Hgd Hg) as [Hg' Hd'].
  unfold hardCamera. rewrite Hd', Hs', Hd, Hs.
  destruct ev as [results| | |d|val]; cbn [step] in *.
  - destruct (onPoseResults_avatar results st) as [Hy1 Hv1].
    pose proof (currentIntensity_range results st Hs) as Hr.
    rewrite Hy1, Hv1, onPoseResults_intensityRef.
    repeat split; try assumption; try lra; try discriminate.
  - destruct (updateGame_avatar rand st) as [Hy1 Hv1].
    destruct (updateGame_kept rand st) as [Hk _].
    replace (intensityRef (updateGame rand st)) with (intensityRef st) by congruence.
    destruct (hard_physics st Hd Hi Hv Hy) as (Hp1 & Hp2).
    rewrite Hy1, Hv1.
    destruct (gameState st) eqn:E; try contradiction;
      repeat split; try assumption; try lra; try discriminate.
  - contradiction.
  - destruct (gameState st) eqn:E; try contradiction;
      repeat split; try assumption; try lra; try discriminate.
  - rewrite Hs. repeat split; try assumption; try lra; try discriminate.
Qed.

(** X27. On Hard, played through the camera, the avatar cannot climb: the
    lift of a smoothed intensity of at most 1 is never more than the gravity,
    so from a state where the avatar is in the field and not moving up, and
    until START or Try Again is pressed, no event raises it, and its velocity
    is never upward. *)
Theorem hard_avatar_never_rises (evs : list Event) (st : Engine) :
  hardCamera st -> noStart evs ->
  playerY st <= playerY (run rand evs st) /\
  0 <= playerVelocity (run rand evs st).
Proof.
  revert st. induction evs as [|ev evs IH]; intros st Hst Hevs.
  - split; [cbn; lra|apply Hst].
  - apply Forall_cons_iff in Hevs. destruct Hevs as [Hev Hevs].
    destruct (hard_step ev st Hst Hev) as (Hst' & Hle).
    destruct (IH _ Hst' Hevs) as [IHle IHv].
    cbn [run fold_left]. unfold run in IHle, IHv. split; [lra|exact IHv].
Qed.

End Avatar.

Lemma hard_avatar_never_rises_witness :
  let rand := fun _ : nat => 0.7 in
  let evs := [EvPose (Some (bentLeg None)); EvFrame; EvFrame] in
  playerY hardState <= playerY (run rand evs hardState) /\
  0 <= playerVelocity (run rand evs hardState).
Proof.
  intros rand evs.
  apply (hard_avatar_never_rises rand evs hardState).
  - unfold hardCamera, hardState, CANVAS_HEIGHT. cbn.
    split; [reflexivity|]. split; [discriminate|]. split; [reflexivity|]. lra.
  - unfold noStart, evs. repeat (apply Forall_cons; [discriminate|]). apply Forall_nil.
Defined.

(** ** The prototype *)

Lemma nth_error_middle {A : Type} (done : list A) (o : A) (rest : list A) :
  nth_error (done ++ o :: rest) (length done) = Some o.
Proof. induction done as [|d done IH]; [reflexivity|exact IH]. Qed.

Lemma firstn_prefix {A : Type} (done l : list A) : firstn (length done) (done ++ l) = done.
Proof. induction done as [|d done IH]; [reflexivity|]. cbn. rewrite IH. reflexivity. Qed.

Lemma skipn_prefix {A : Type} (done : list A) (o : A) (rest : list A) :
  skipn (S (length done)) (done ++ o :: rest) = rest.
Proof. induction done as [|d done IH]; [reflexivity|exact IH]. Qed.

Lemma forEach_past_end (s : R) (fuel k : nat) (arr : list Prototype.Block.t) (score : Z) :
  (length arr <= k)%nat -> Prototype.forEach s fuel k arr score = (arr, score).
Proof.
  revert k. induction fuel as [|fuel IH]; intros k Hk; [reflexivity|].
  cbn [Prototype.forEach].
  assert (H : nth_error arr k = None) by (apply nth_error_None; exact Hk).
  rewrite H. apply IH. lia.
Qed.

Lemma forEach_sweep (s : R) (fuel : nat) (todo done : list Prototype.Block.t) (score : Z) :
  (length todo <= fuel)%nat ->
  Prototype.forEach s fuel (length done) (done ++ todo) score
  = (done ++ fst (sweep s todo), (score + snd (sweep s todo))%Z).
Proof.
  revert todo done score. induction fuel as [|fuel IH]; intros todo done score Hf.
  - destruct todo; [|cbn in Hf; lia]. cbn. rewrite Z.add_0_r. reflexivity.
  - destruct todo as [|o rest].
    + rewrite forEach_past_end by (rewrite app_nil_r; lia).
      cbn. rewrite Z.add_0_r. reflexivity.
    + cbn [Prototype.forEach]. rewrite nth_error_middle. cbv zeta.
      rewrite firstn_prefix, skipn_prefix. cbn [sweep]. cbv zeta.
      cbn [length] in Hf.
      destruct (_ <? 0).
      * destruct rest as [|b rest'].
        -- rewrite forEach_past_end by (rewrite app_nil_r; lia). reflexivity.
        -- replace (done ++ b :: rest') with ((done ++ [b]) ++ rest')
             by (rewrite <- app_assoc; reflexivity).
           replace (S (length done)) with (length (done ++ [b]))
             by (rewrite length_app; cbn; lia).
           rewrite IH by (cbn [length] in Hf; lia).
           destruct (sweep s rest') as [r n]. cbn [fst snd].
           rewrite <- app_assoc. f_equal. lia.
      * match goal with
        | |- context [done ++ ?o' :: rest] =>
            replace (done ++ o' :: rest) with ((done ++ [o']) ++ rest)
              by (rewrite <- app_assoc; reflexivity);
            replace (S (length done)) with (length (done ++ [o']))
              by (rewrite length_app; cbn; lia)
        end.
        rewrite IH by lia.
        destruct (sweep s rest) as [r n]. cbn [fst snd].
        rewrite <- app_assoc. reflexivity.
Qed.

Lemma moveObstacles_sweep (s : R) (arr : list Prototype.Block.t) (score : Z) :
  Prototype.moveObstacles s arr score = (fst (sweep s arr), (score + snd (sweep s arr))%Z).
Proof.
  unfold Prototype.moveObstacles.
  exact (forEach_sweep s (length arr) arr [] score (le_n _)).
Qed.

(** X29. The prototype's obstacle loop, which splices inside [forEach]: an
    obstacle that is not yet past the left edge is moved and the loop goes on
    with the next one; one that is past it is removed and scores a point, and
    the obstacle right after it is passed over for this frame, neither moved
    nor checked, the loop going on with the one after that. *)
Theorem prototype_loop_skips (s : R) (a : Prototype.Block.t)
    (rest : list Prototype.Block.t) (score : Z) :
  let a' := Prototype.Block.set_x (Prototype.Block.x a - s) a in
  Prototype.moveObstacles s (a :: rest) score
  = if Prototype.Block.x a' + Prototype.Block.w a' <? 0 then
      match rest with
      | [] => ([], (score + 1)%Z)
      | b :: rest' =>
          (b :: fst (Prototype.moveObstacles s rest' 0),
           (score + 1 + snd (Prototype.moveObstacles s rest' 0))%Z)
      end
    else
      (a' :: fst (Prototype.moveObstacles s rest 0),
       (score + snd (Prototype.moveObstacles s rest 0))%Z).
Proof.
  cbv zeta. rewrite !moveObstacles_sweep. cbn [sweep]. cbv zeta.
  destruct (_ <? 0).
  - destruct rest as [|b rest']; [reflexivity|].
    rewrite moveObstacles_sweep.
    destruct (sweep s rest') as [r n]. cbn [fst snd]. f_equal. lia.
  - destruct (sweep s rest) as [r n]. cbn [fst snd]. reflexivity.
Qed.

